(** * NanChat performance helpers: a shallow embedding and its properties

  The development follows [src/utils/performance.ts] (lazyWithRetry,
  debounce, throttle, memoize), [src/hooks/use-optimized-memo.ts]
  (deepEqual) and [vite.config.ts] (manualChunks).

  Conventions.  JavaScript numbers that count or measure milliseconds are
  integers ([Z]).  Closures handed to [setTimeout] are defunctionalised:
  each helper has its own [callback] type whose constructors carry the
  captured variables.  A user function is a parameter; calling it is
  recorded in a log kept next to the helper's own variables.  A user
  function that calls its own wrapper while it runs is a program for a
  small machine with a call stack ([MemoizeMachine], [ThrottleMachine]). *)

From Stdlib Require Import ZArith String Ascii List Bool Lia.
From Stdlib Require Import QArith Lqa.
From stdpp Require Import base option list gmap strings pretty.

Set Warnings "-register-all".
Local Open Scope Z_scope.

(** ** Completion records of user code *)

Inductive completion (A E : Type) : Type :=
  | Returns (a : A)
  | Throws (e : E).
Arguments Returns {A E} a.
Arguments Throws {A E} e.

(** ** The host's timers: setTimeout and clearTimeout *)

Module Host.
Section Timers.
Context {Cb : Type}.

Record timer := Timer { timer_id : nat; timer_due : Z; timer_cb : Cb }.

(** [clock] is the current time in milliseconds, [next_id] the handle the
    next [setTimeout] returns, [pending] the timers not yet run. *)
Record host := Host { clock : Z; next_id : nat; pending : list timer }.

(** Timer handles are integers greater than zero. *)
Definition boot : host := Host 0 1 [].

(** [setTimeout(cb, delay)]: a negative delay counts as zero. *)
Definition setTimeout (cb : Cb) (delay : Z) (h : host) : nat * host :=
  (next_id h,
   Host (clock h) (S (next_id h))
        (pending h ++ [Timer (next_id h) (clock h + Z.max 0 delay) cb])).

Definition other_than (id : nat) (tm : timer) : bool :=
  negb (Nat.eqb (timer_id tm) id).

(** [clearTimeout(id)]: an unknown handle is ignored. *)
Definition clearTimeout (id : nat) (h : host) : host :=
  Host (clock h) (next_id h) (List.filter (other_than id) (pending h)).

Definition find_timer (id : nat) (h : host) : option timer :=
  List.find (fun tm => Nat.eqb (timer_id tm) id) (pending h).

(** Time passes until [t]; the clock never runs backwards. *)
Definition advance (t : Z) (h : host) : option host :=
  if Z.leb (clock h) t then Some (Host t (next_id h) (pending h)) else None.

(** The host runs timer [id] at time [t]: possible once the timer's delay
    has elapsed, at that moment or later.  The timer leaves the queue and
    its callback is handed back to be run. *)
Definition expire (t : Z) (id : nat) (h : host) : option (Cb * host) :=
  match find_timer id h with
  | Some tm =>
      if Z.leb (clock h) t && Z.leb (timer_due tm) t
      then Some (timer_cb tm,
                 Host t (next_id h) (List.filter (other_than id) (pending h)))
      else None
  | None => None
  end.
End Timers.
Arguments timer : clear implicits.
Arguments host : clear implicits.

(** A helper instance driven by the outside world: [Call t a] is a call of
  the wrapped function at time [t], [Fire t id] the host running timer
  [id] at time [t]. *)
Section Loop.
Context {Args Cb L : Type}.
Variable on_call : Args -> L * host Cb -> L * host Cb.
Variable on_timer : Cb -> L * host Cb -> L * host Cb.

Inductive event := Call (t : Z) (args : Args) | Fire (t : Z) (id : nat).

Definition step (e : event) (s : L * host Cb) : option (L * host Cb) :=
  match e with
  | Call t args =>
      match advance t (snd s) with
      | Some h => Some (on_call args (fst s, h))
      | None => None
      end
  | Fire t id =>
      match expire t id (snd s) with
      | Some (cb, h) => Some (on_timer cb (fst s, h))
      | None => None
      end
  end.

Fixpoint run (tr : list event) (s : L * host Cb) : option (L * host Cb) :=
  match tr with
  | [] => Some s
  | e :: tr' =>
      match step e s with
      | Some s' => run tr' s'
      | None => None
      end
  end.

(** The calls of a trace, in order, with their times. *)
Fixpoint calls_of (tr : list event) : list (Z * Args) :=
  match tr with
  | [] => []
  | Call t a :: tr' => (t, a) :: calls_of tr'
  | Fire _ _ :: tr' => calls_of tr'
  end.
End Loop.
Arguments event : clear implicits.
End Host.

(** Consecutive times of a list are less than [w] apart. *)
Fixpoint within (w : Z) (ts : list Z) : Prop :=
  match ts with
  | t1 :: ((t2 :: _) as rest) => t2 - t1 < w /\ within w rest
  | _ => True
  end.

(** Consecutive times of a list are at least [w] apart. *)
Fixpoint spaced (w : Z) (ts : list Z) : Prop :=
  match ts with
  | t1 :: ((t2 :: _) as rest) => t1 + w <= t2 /\ spaced w rest
  | _ => True
  end.

(** ** debounce *)

(** [debounce(func, wait)] makes an instance: [create] holds its variables
    as they start, [executedFunction] is the function it returns.  [func] is
    called last in [later], so whether it returns or throws makes no
    difference to the instance; the call is logged in [invoked]. *)
Module Debounce.
Section Debounce.
Context {Args : Type}.
Variable wait : Z.

(** The closure [later] captures the arguments of the call that made it. *)
Inductive callback := Later (args : Args).

(** [timeout] is the closure variable of that name ([None] is [null]);
    [invoked] logs the calls of [func], with the time of each. *)
Record vars := Vars { timeout : option nat; invoked : list (Z * Args) }.

Definition state : Type := vars * Host.host callback.

Definition create : state := (Vars None [], Host.boot).

(** [if (timeout)]: [null] and the number 0 are falsy. *)
Definition truthy (slot : option nat) : option nat :=
  match slot with
  | Some (S n) => Some (S n)
  | _ => None
  end.

Definition executedFunction (args : Args) (s : state) : state :=
  let h1 := match truthy (timeout (fst s)) with
            | Some id => Host.clearTimeout id (snd s)
            | None => snd s
            end in
  let '(id, h2) := Host.setTimeout (Later args) wait h1 in
  (Vars (Some id) (invoked (fst s)), h2).

Definition later (args : Args) (s : state) : state :=
  (Vars None (invoked (fst s) ++ [(Host.clock (snd s), args)]), snd s).

Definition on_timer (cb : callback) (s : state) : state :=
  match cb with Later args => later args s end.

Definition step := Host.step executedFunction on_timer.
Definition run := Host.run executedFunction on_timer.

(** The states of an instance, as the proofs name them.  [tidy]: the slot
    [timeout] and the host's queue agree, on no timer or on one. *)
Definition tidy (s : state) : Prop :=
  (exists k, Host.next_id (snd s) = S k) /\
  ((timeout (fst s) = None /\ Host.pending (snd s) = []) \/
   (exists id due args,
      timeout (fst s) = Some (S id) /\
      Host.pending (snd s) = [Host.Timer (S id) due (Later args)])).

(** [armed tl al]: the last call came at [tl] with [al], its timer is the
    one pending and [func] has not been called. *)
Definition armed (tl : Z) (al : Args) (s : state) : Prop :=
  exists id nid,
    fst s = Vars (Some (S id)) [] /\
    snd s = Host.Host tl nid [Host.Timer (S id) (tl + Z.max 0 wait) (Later al)].

(** [fired tl al]: the timer of the last call has run, no sooner than
    [wait] after [tl], and that was the one call of [func]. *)
Definition fired (tl : Z) (al : Args) (s : state) : Prop :=
  exists t,
    fst s = Vars None [(t, al)] /\ Host.pending (snd s) = [] /\
    tl + Z.max 0 wait <= t /\ t <= Host.clock (snd s).
End Debounce.
Arguments callback : clear implicits.
Arguments vars : clear implicits.
Arguments state : clear implicits.
End Debounce.

(** ** throttle *)

(** [throttle(func, limit)] makes an instance: [create] holds its variables
    as they start, [executedFunction] is the function it returns.  Here a
    call of [func] is one step, which is how a [func] that does not call the
    throttled function runs; [ThrottleMachine] below has the general case,
    and for such a [func] the two agree
    ([machine_agrees_with_executedFunction]). *)
Module Throttle.
Section Throttle.
Context {Args E : Type}.
(** What a call of [func] does besides being logged: return or throw. *)
Variable func : Args -> completion unit E.
Variable limit : Z.

(** The arrow function [() => (inThrottle = false)]. *)
Inductive callback := Reset.

(** [inThrottle] starts out undefined, which is falsy. *)
Record vars := Vars { inThrottle : bool; invoked : list (Z * Args) }.

Definition state : Type := vars * Host.host callback.

Definition create : state := (Vars false [], Host.boot).

(** A throw of [func] leaves the function before [inThrottle = true] and
    before [setTimeout]. *)
Definition executedFunction (args : Args) (s : state) : state :=
  if inThrottle (fst s) then s
  else
    let log := invoked (fst s) ++ [(Host.clock (snd s), args)] in
    match func args with
    | Returns _ =>
        let '(_, h) := Host.setTimeout Reset limit (snd s) in
        (Vars true log, h)
    | Throws _ => (Vars false log, snd s)
    end.

Definition on_timer (cb : callback) (s : state) : state :=
  match cb with Reset => (Vars false (invoked (fst s)), snd s) end.

Definition step := Host.step executedFunction on_timer.
Definition run := Host.run executedFunction on_timer.

End Throttle.
Arguments vars : clear implicits.
Arguments state : clear implicits.
End Throttle.

(** ** lazyWithRetry *)

(** [lazyWithRetry(importFunc, retries, interval)] hands [lazy] a function
    that makes a promise and starts [attemptImport(retries)]: [load] is the
    state right after that, [run] the event loop from there on.  The retry
    count is an integer; [importFunc] answers with a promise, as its type
    says. *)
Module LazyWithRetry.
Section Loader.
Context {Mod Err : Type}.

(** How the promise returned by a call of [importFunc] settles, and how
    long after the call (a negative latency counts as zero). *)
Inductive settled := Fulfilled (m : Mod) | Rejected (e : Err).
Record reply := Reply { outcome : settled; latency : Z }.

(** [importFunc k] is what the call number [k] (from 0) of the import
    operation answers. *)
Variable importFunc : nat -> reply.
Variable retries interval : Z.
(** How long after its due time the host runs timer [id]. *)
Variable lateness : nat -> Z.

(** The arrow function [() => attemptImport(attemptsLeft - 1)]; the
    constructor carries the value of [attemptsLeft - 1]. *)
Inductive callback := Retry (attemptsLeft : Z).

(** [promise] is the promise built by [new Promise] ([None] while pending),
    [inflight] the promise of the running import with the time at which it
    settles, its outcome and the [attemptsLeft] of its handlers; [attempts]
    logs the time of every call of [importFunc]. *)
Record vars := Vars {
  promise : option settled;
  inflight : option (Z * settled * Z);
  attempts : list Z
}.

Definition state : Type := vars * Host.host callback.

(** [resolve] and [reject] settle a pending promise and are ignored after. *)
Definition settle (o : settled) (s : state) : state :=
  match promise (fst s) with
  | None => (Vars (Some o) (inflight (fst s)) (attempts (fst s)), snd s)
  | Some _ => s
  end.

Definition attemptImport (attemptsLeft : Z) (s : state) : state :=
  let r := importFunc (length (attempts (fst s))) in
  let now := Host.clock (snd s) in
  (Vars (promise (fst s))
        (Some (now + Z.max 0 (latency r), outcome r, attemptsLeft))
        (attempts (fst s) ++ [now]),
   snd s).

(** The handlers [.then(resolve).catch((error) => ...)]. *)
Definition on_settled (o : settled) (attemptsLeft : Z) (s : state) : state :=
  match o with
  | Fulfilled m => settle (Fulfilled m) s
  | Rejected error =>
      if Z.eqb attemptsLeft 0 then settle (Rejected error) s
      else
        let '(_, h) := Host.setTimeout (Retry (attemptsLeft - 1)) interval (snd s) in
        (fst s, h)
  end.

(** One turn of the event loop: the running import settles, or else the
    oldest timer runs, [lateness] after its due time. *)
Definition tick (s : state) : option state :=
  match inflight (fst s) with
  | Some (t, o, n) =>
      Some (on_settled o n
              (Vars (promise (fst s)) None (attempts (fst s)),
               Host.Host t (Host.next_id (snd s)) (Host.pending (snd s))))
  | None =>
      match Host.pending (snd s) with
      | tm :: _ =>
          let t := Z.max (Host.clock (snd s))
                         (Host.timer_due tm + Z.max 0 (lateness (Host.timer_id tm))) in
          match Host.expire t (Host.timer_id tm) (snd s) with
          | Some (Retry n, h) => Some (attemptImport n (fst s, h))
          | None => None
          end
      | [] => None
      end
  end.

Fixpoint run (fuel : nat) (s : state) : state :=
  match fuel with
  | O => s
  | S fuel' =>
      match tick s with
      | Some s' => run fuel' s'
      | None => s
      end
  end.

(** The function handed to [lazy]: a new promise, and [attemptImport(retries)]. *)
Definition load : state := attemptImport retries (Vars None None [], Host.boot).

(** The states of a load, as the proofs name them.  [importing j]: the
    attempt number [j] is running, the promise is pending, no timer is set
    and the log holds the times of the attempts 0 to [j]. *)
Definition importing (j : nat) (s : state) : Prop :=
  exists ts t t' id,
    s = (Vars None (Some (t', outcome (importFunc j), retries - Z.of_nat j)) ts,
         Host.Host t id []) /\
    length ts = S j /\ spaced interval ts /\ last ts = Some t /\ t <= t'.

(** [waiting j]: the attempt number [j] has failed and the timer of the
    next attempt is set, due no sooner than [interval] after it. *)
Definition waiting (j : nat) (s : state) : Prop :=
  exists ts t0 t id due,
    s = (Vars None None ts,
         Host.Host t (S id)
           [Host.Timer id due (Retry (retries - Z.of_nat j - 1))]) /\
    length ts = S j /\ spaced interval ts /\ last ts = Some t0 /\
    t0 + interval <= due /\ t <= due.

(** [finished o j]: the promise is settled as [o] after the attempts 0 to
    [j], and nothing is left to run. *)
Definition finished (o : settled) (j : nat) (s : state) : Prop :=
  exists ts h,
    s = (Vars (Some o) None ts, h) /\ Host.pending h = [] /\
    length ts = S j /\ spaced interval ts.
End Loader.
Arguments settled : clear implicits.
Arguments reply : clear implicits.
Arguments vars : clear implicits.
Arguments state : clear implicits.
End LazyWithRetry.

(** ** memoize *)

(** [memoize(fn, getKey)] makes an instance: [create] holds its cache as it
    starts, [memoized] is the function it returns.  Here a call of [fn] is
    one step, which is how an [fn] that does not call the memoized function
    runs; [MemoizeMachine] below has the general case, and for such an [fn]
    the two agree ([machine_agrees_with_memoized]). *)
Module Memoize.
Section Memoize.
Context {Args R E St : Type}.

(** User code runs on a state of its own, and returns or throws. *)
Definition user (A : Type) : Type := St -> completion A E * St.

Variable fn : Args -> user R.
Variable getKey : option (Args -> user string).
(** [JSON.stringify(args)], which throws on cyclic values and bigints. *)
Variable stringify : Args -> completion string E.

(** [cache] is the [Map] of the closure, [world] the state user code runs
    on, [invocations] the log of the calls of [fn]. *)
Record memo := Memo {
  cache : gmap string R;
  world : St;
  invocations : list Args
}.

Definition create (w : St) : memo := Memo ∅ w [].

(** [getKey ? getKey(...args) : JSON.stringify(args)] *)
Definition key_of (args : Args) (w : St) : completion string E * St :=
  match getKey with
  | Some g => g args w
  | None => (stringify args, w)
  end.

Definition memoized (args : Args) (m : memo) : completion R E * memo :=
  let '(k, w1) := key_of args (world m) in
  match k with
  | Throws e => (Throws e, Memo (cache m) w1 (invocations m))
  | Returns key =>
      match cache m !! key with
      | Some v => (Returns v, Memo (cache m) w1 (invocations m))
      | None =>
          let '(r, w2) := fn args w1 in
          match r with
          | Returns result =>
              (Returns result,
               Memo (<[key := result]> (cache m)) w2 (invocations m ++ [args]))
          | Throws e => (Throws e, Memo (cache m) w2 (invocations m ++ [args]))
          end
      end
  end.

(** A sequence of calls, one after the other. *)
Fixpoint calls (l : list Args) (m : memo) : memo :=
  match l with
  | [] => m
  | args :: l' => calls l' (snd (memoized args m))
  end.
End Memoize.
Arguments memo : clear implicits.
End Memoize.

(** ** memoize, when [fn] calls the memoized function *)

(** In [Memoize] a call of [fn] is one step: it suits an [fn] that does not
    call the memoized function while it runs.  Here [fn] is a program that
    may do so (a recursive function memoized under its own name): [Invoke]
    calls the memoized function and goes on with what the call gave, a value
    or an error it may catch; [Access] reads and writes the state of user
    code.  The machine keeps the JavaScript call stack: one [frame] for each
    call of the memoized function that is waiting for [fn] to come back.
    The key of a call is computed as in [Memoize]. *)
Module MemoizeMachine.
Section Machine.
Context {Args R E St : Type}.

Inductive code : Type :=
  | Done (c : completion R E)
  | Invoke (args : Args) (k : completion R E -> code)
  | Access (update : St -> St) (k : St -> code).

Variable fn : Args -> code.
Variable getKey : option (Args -> St -> completion string E * St).
Variable stringify : Args -> completion string E.

(** What the memoized function does, in order: [Invoked] is a call of
    [fn], [Stored] is [cache.set(key, result)], [Answered] is the memoized
    function giving [c] to its caller for a call on [key]. *)
Inductive event : Type :=
  | Invoked (key : string) (args : Args)
  | Stored (key : string) (v : R)
  | Answered (key : string) (c : completion R E).

(** A call that missed the cache and is running [fn]: [frame_key] is its
    [const key], [frame_caller] the code that made the call and waits for
    the result ([None]: code outside [fn]). *)
Record frame := Frame {
  frame_key : string;
  frame_caller : option (completion R E -> code)
}.

(** [control] is the code of [fn] that is running ([None]: no call is
    running); [answer] is what the last call from outside gave. *)
Record config := Config {
  cache : gmap string R;
  world : St;
  trace : list event;
  stack : list frame;
  control : option code;
  answer : option (completion R E)
}.

Definition create (w : St) : config := Config ∅ w [] [] None None.

(** The memoized function hands [c] to its caller. *)
Definition resume (from : option (completion R E -> code)) (c : completion R E)
    (cfg : config) : config :=
  match from with
  | Some k =>
      Config (cache cfg) (world cfg) (trace cfg) (stack cfg) (Some (k c)) (answer cfg)
  | None =>
      Config (cache cfg) (world cfg) (trace cfg) (stack cfg) None (Some c)
  end.

(** The memoized function is called by [from]: the key, [cache.has(key)],
    and on a miss the call [fn(...args)] begins. *)
Definition memoized (args : Args) (from : option (completion R E -> code))
    (cfg : config) : config :=
  let '(k, w1) := Memoize.key_of getKey stringify args (world cfg) in
  match k with
  | Throws e =>
      resume from (Throws e)
        (Config (cache cfg) w1 (trace cfg) (stack cfg) (control cfg) (answer cfg))
  | Returns key =>
      match cache cfg !! key with
      | Some v =>
          resume from (Returns v)
            (Config (cache cfg) w1 (trace cfg ++ [Answered key (Returns v)])
                    (stack cfg) (control cfg) (answer cfg))
      | None =>
          Config (cache cfg) w1 (trace cfg ++ [Invoked key args])
                 (Frame key from :: stack cfg) (Some (fn args)) (answer cfg)
      end
  end.

(** [fn] has come back to the call on top of the stack:
    [cache.set(key, result); return result], or the error passes through. *)
Definition finish (c : completion R E) (cfg : config) : option config :=
  match stack cfg with
  | [] => None
  | Frame key from :: rest =>
      Some
        match c with
        | Returns result =>
            resume from c
              (Config (<[key := result]> (cache cfg)) (world cfg)
                      (trace cfg ++ [Stored key result; Answered key c])
                      rest (control cfg) (answer cfg))
        | Throws _ =>
            resume from c
              (Config (cache cfg) (world cfg) (trace cfg ++ [Answered key c])
                      rest (control cfg) (answer cfg))
        end
  end.

(** One step of the running code. *)
Definition tick (cfg : config) : option config :=
  match control cfg with
  | None => None
  | Some (Done c) => finish c cfg
  | Some (Invoke args k) => Some (memoized args (Some k) cfg)
  | Some (Access update k) =>
      Some (Config (cache cfg) (update (world cfg)) (trace cfg) (stack cfg)
                   (Some (k (world cfg))) (answer cfg))
  end.

(** [Call args]: code outside [fn] calls the memoized function, which it
    can do when no call is running; [Tick]: the running code takes a step. *)
Inductive input : Type := Call (args : Args) | Tick.

Definition step (i : input) (cfg : config) : option config :=
  match i with
  | Call args =>
      match control cfg with
      | None => Some (memoized args None cfg)
      | Some _ => None
      end
  | Tick => tick cfg
  end.

Fixpoint run (l : list input) (cfg : config) : option config :=
  match l with
  | [] => Some cfg
  | i :: l' =>
      match step i cfg with
      | Some cfg' => run l' cfg'
      | None => None
      end
  end.

(** The keys of the calls that are running [fn]. *)
Definition running (cfg : config) : list string := map frame_key (stack cfg).

(** [key] holds [v] and no call on [key] is running. *)
Definition settled (key : string) (v : R) (cfg : config) : Prop :=
  cache cfg !! key = Some v /\ key ∉ running cfg.

(** An event that leaves [key] alone: no call of [fn] for it, no
    [cache.set] on it, and an answer on it is [v]. *)
Definition agrees (key : string) (v : R) (ev : event) : Prop :=
  match ev with
  | Invoked k _ => k <> key
  | Stored k _ => k <> key
  | Answered k c => k = key -> c = Returns v
  end.

(** What one step does to the cache, the stack and the trace: nothing, an
    answer from the cache, the start of a call of [fn], or the end of one,
    with [cache.set] when [fn] returned and without when it threw. *)
Inductive effect (cfg cfg' : config) : Prop :=
  | Silent :
      cache cfg' = cache cfg -> stack cfg' = stack cfg ->
      trace cfg' = trace cfg ++ [] -> effect cfg cfg'
  | Hit (key : string) (v : R) :
      cache cfg !! key = Some v ->
      cache cfg' = cache cfg -> stack cfg' = stack cfg ->
      trace cfg' = trace cfg ++ [Answered key (Returns v)] -> effect cfg cfg'
  | Miss (key : string) (args : Args) (from : option (completion R E -> code)) :
      cache cfg !! key = None ->
      cache cfg' = cache cfg -> stack cfg' = Frame key from :: stack cfg ->
      trace cfg' = trace cfg ++ [Invoked key args] -> effect cfg cfg'
  | Store (key : string) (from : option (completion R E -> code)) (v : R) :
      stack cfg = Frame key from :: stack cfg' ->
      cache cfg' = <[key := v]> (cache cfg) ->
      trace cfg' = trace cfg ++ [Stored key v; Answered key (Returns v)] ->
      effect cfg cfg'
  | Fail (key : string) (from : option (completion R E -> code)) (e : E) :
      stack cfg = Frame key from :: stack cfg' ->
      cache cfg' = cache cfg ->
      trace cfg' = trace cfg ++ [Answered key (Throws e)] ->
      effect cfg cfg'.

(** The arguments [fn] was called with, in order. *)
Fixpoint invocations_of (tr : list event) : list Args :=
  match tr with
  | [] => []
  | Invoked _ args :: tr' => args :: invocations_of tr'
  | _ :: tr' => invocations_of tr'
  end.

(** What a piece of code gives on state [w] when it runs to its end without
    calling the memoized function; [None] when it does call it. *)
Fixpoint outcome (c : code) (w : St) : option (completion R E * St) :=
  match c with
  | Done r => Some (r, w)
  | Invoke _ _ => None
  | Access update k => outcome (k w) (update w)
  end.
End Machine.
Arguments code : clear implicits.
Arguments event : clear implicits.
Arguments frame : clear implicits.
Arguments config : clear implicits.
Arguments input : clear implicits.
End MemoizeMachine.

(** ** throttle, when [func] calls the throttled function *)

(** In [Throttle] a call of [func] is one step: it suits a [func] that does
    not call the throttled function while it runs.  Here [func] is a program
    that may do so; [func(...args)] comes before [inThrottle = true], so
    such a call finds the flag not set.  The stack holds the callers of the
    calls that are running [func] ([None]: code outside [func]). *)
Module ThrottleMachine.
Section Machine.
Context {Args E St : Type}.

Inductive code : Type :=
  | Done (c : completion unit E)
  | Invoke (args : Args) (k : completion unit E -> code)
  | Access (update : St -> St) (k : St -> code).

Variable func : Args -> code.
Variable limit : Z.

Record config := Config {
  inThrottle : bool;
  invoked : list (Z * Args);
  world : St;
  host : Host.host Throttle.callback;
  stack : list (option (completion unit E -> code));
  control : option code
}.

Definition create (w : St) : config := Config false [] w Host.boot [] None.

(** The throttled function hands [c] to its caller. *)
Definition resume (from : option (completion unit E -> code))
    (c : completion unit E) (cfg : config) : config :=
  Config (inThrottle cfg) (invoked cfg) (world cfg) (host cfg) (stack cfg)
         match from with
         | Some k => Some (k c)
         | None => None
         end.

(** The throttled function is called by [from]: [if (!inThrottle)], and
    the call [func(...args)] begins. *)
Definition executedFunction (args : Args)
    (from : option (completion unit E -> code)) (cfg : config) : config :=
  if inThrottle cfg then resume from (Returns tt) cfg
  else
    Config (inThrottle cfg)
           (invoked cfg ++ [(Host.clock (host cfg), args)])
           (world cfg) (host cfg) (from :: stack cfg) (Some (func args)).

(** [func] has come back to the call on top of the stack:
    [inThrottle = true; setTimeout(...)], or the error passes through. *)
Definition finish (c : completion unit E) (cfg : config) : option config :=
  match stack cfg with
  | [] => None
  | from :: rest =>
      Some
        match c with
        | Returns _ =>
            let '(_, h) := Host.setTimeout Throttle.Reset limit (host cfg) in
            resume from (Returns tt)
              (Config true (invoked cfg) (world cfg) h rest (control cfg))
        | Throws e =>
            resume from (Throws e)
              (Config (inThrottle cfg) (invoked cfg) (world cfg) (host cfg)
                      rest (control cfg))
        end
  end.

Definition tick (cfg : config) : option config :=
  match control cfg with
  | None => None
  | Some (Done c) => finish c cfg
  | Some (Invoke args k) => Some (executedFunction args (Some k) cfg)
  | Some (Access update k) =>
      Some (Config (inThrottle cfg) (invoked cfg) (update (world cfg))
                   (host cfg) (stack cfg) (Some (k (world cfg))))
  end.

(** [Call t args]: code outside [func] calls the throttled function at
    time [t]; [Fire t id]: the host runs timer [id] at time [t]; both only
    when no code is running.  [Tick]: the running code takes a step, for
    which no time passes. *)
Inductive input : Type :=
  | Call (t : Z) (args : Args)
  | Fire (t : Z) (id : nat)
  | Tick.

Definition step (i : input) (cfg : config) : option config :=
  match i with
  | Call t args =>
      match control cfg, Host.advance t (host cfg) with
      | None, Some h =>
          Some (executedFunction args None
                  (Config (inThrottle cfg) (invoked cfg) (world cfg) h
                          (stack cfg) (control cfg)))
      | _, _ => None
      end
  | Fire t id =>
      match control cfg, Host.expire t id (host cfg) with
      | None, Some (Throttle.Reset, h) =>
          Some (Config false (invoked cfg) (world cfg) h (stack cfg) (control cfg))
      | _, _ => None
      end
  | Tick => tick cfg
  end.

Fixpoint run (l : list input) (cfg : config) : option config :=
  match l with
  | [] => Some cfg
  | i :: l' =>
      match step i cfg with
      | Some cfg' => run l' cfg'
      | None => None
      end
  end.

(** Code that never calls the throttled function. *)
Fixpoint quiet (c : code) : Prop :=
  match c with
  | Done _ => True
  | Invoke _ _ => False
  | Access _ k => forall w, quiet (k w)
  end.

(** Code that never calls the throttled function and never throws. *)
Fixpoint returns (c : code) : Prop :=
  match c with
  | Done (Returns _) => True
  | Done (Throws _) => False
  | Invoke _ _ => False
  | Access _ k => forall w, returns (k w)
  end.

(** The states of an instance whose [func] is quiet, as the proofs name
    them.  [single]: while no code runs, the flag is set exactly while the
    one timer of the instance is pending; while [func] runs, the flag is not
    set and no timer is pending. *)
Definition single (cfg : config) : Prop :=
  (control cfg = None /\ stack cfg = [] /\
   ((inThrottle cfg = true /\ exists tm, Host.pending (host cfg) = [tm]) \/
    (inThrottle cfg = false /\ Host.pending (host cfg) = []))) \/
  (exists c, control cfg = Some c /\ quiet c /\ stack cfg = [None] /\
             inThrottle cfg = false /\ Host.pending (host cfg) = []).

(** [steady]: the calls of [func] so far are at least [limit] apart; while
    the flag is set, the pending timer is due [limit] after the last of
    them; once it is reset that time has passed; and while [func] runs it
    was called just now. *)
Definition steady (cfg : config) : Prop :=
  spaced limit (map fst (invoked cfg)) /\
  ((control cfg = None /\ stack cfg = [] /\ inThrottle cfg = true /\
    exists id t0,
      last (map fst (invoked cfg)) = Some t0 /\
      Host.pending (host cfg) = [Host.Timer id (t0 + Z.max 0 limit) Throttle.Reset]) \/
   (control cfg = None /\ stack cfg = [] /\ inThrottle cfg = false /\
    Host.pending (host cfg) = [] /\
    forall t0, last (map fst (invoked cfg)) = Some t0 ->
               t0 + limit <= Host.clock (host cfg)) \/
   (exists c, control cfg = Some c /\ returns c /\ stack cfg = [None] /\
              inThrottle cfg = false /\ Host.pending (host cfg) = [] /\
              last (map fst (invoked cfg)) = Some (Host.clock (host cfg)))).
End Machine.
Arguments code : clear implicits.
Arguments config : clear implicits.
Arguments input : clear implicits.
End ThrottleMachine.

(** ** Functions that call their own wrapper *)

(** The functions of the examples.  [halve] is
    [n => n < 2 ? 0 : m(n - 2) + 1] with [m] the memoized function itself;
    [parity] is the key function [n => String(n % 2)]; [flaky] is
    [n => { if (n === 1) { m(3); throw "boom" } return n }]; [twice] is
    [d => { if (d === 0) th(1) }] with [th] the throttled function itself. *)
Module Reentrant.
Definition halve (n : nat) : MemoizeMachine.code nat nat string unit :=
  match n with
  | S (S n') =>
      MemoizeMachine.Invoke n'
        (fun c =>
           match c with
           | Returns r => MemoizeMachine.Done (Returns (S r))
           | Throws e => MemoizeMachine.Done (Throws e)
           end)
  | _ => MemoizeMachine.Done (Returns O)
  end.

Definition parity : option (nat -> unit -> completion string string * unit) :=
  Some (fun n w => (Returns (pretty (n mod 2)%nat), w)).

Definition stringify (n : nat) : completion string string := Returns (pretty n).

Definition flaky (n : nat) : MemoizeMachine.code nat nat string unit :=
  match n with
  | 1%nat =>
      MemoizeMachine.Invoke 3%nat
        (fun c =>
           match c with
           | Returns _ => MemoizeMachine.Done (Throws "boom"%string)
           | Throws e => MemoizeMachine.Done (Throws e)
           end)
  | _ => MemoizeMachine.Done (Returns n)
  end.

Definition twice (d : nat) : ThrottleMachine.code nat string unit :=
  match d with
  | O => ThrottleMachine.Invoke 1%nat (fun c => ThrottleMachine.Done c)
  | _ => ThrottleMachine.Done (Returns tt)
  end.
End Reentrant.

(** ** manualChunks *)

Module ManualChunks.
Local Open Scope string_scope.

(** [s.includes(needle)] *)
Fixpoint includes (s needle : string) : bool :=
  String.prefix needle s ||
  match s with
  | EmptyString => false
  | String _ s' => includes s' needle
  end.

Definition manualChunks (id : string) : option string :=
  if includes id "node_modules" then
    if includes id "react" || includes id "react-dom" || includes id "react-router"
    then Some "vendor-react"
    else if includes id "antd-mobile" || includes id "antd-mobile-icons"
    then Some "vendor-ui"
    else if includes id "i18next" || includes id "react-i18next"
    then Some "vendor-i18n"
    else if includes id "nano" || includes id "bip39" || includes id "argon2"
            || includes id "crypto"
    then Some "vendor-crypto"
    else if includes id "@capacitor"
    then Some "vendor-capacitor"
    else if includes id "firebase"
    then Some "vendor-firebase"
    else Some "vendor-misc"
  else None.

Definition vendor_chunks : list string :=
  ["vendor-react"; "vendor-ui"; "vendor-i18n"; "vendor-crypto";
   "vendor-capacitor"; "vendor-firebase"; "vendor-misc"].

(** The rules as the configuration documents them: a chunk for the first
    group of substrings one of which occurs in the path, [vendor-misc] for
    the other dependencies. *)
Definition rules : list (list string * string) :=
  [(["react"; "react-dom"; "react-router"], "vendor-react");
   (["antd-mobile"; "antd-mobile-icons"], "vendor-ui");
   (["i18next"; "react-i18next"], "vendor-i18n");
   (["nano"; "bip39"; "argon2"; "crypto"], "vendor-crypto");
   (["@capacitor"], "vendor-capacitor");
   (["firebase"], "vendor-firebase")].

Fixpoint first_rule (id : string) (table : list (list string * string)) : string :=
  match table with
  | [] => "vendor-misc"
  | (substrings, chunk) :: rest =>
      if existsb (includes id) substrings then chunk else first_rule id rest
  end.

(** The substrings the rules above search for. *)
Definition listed : list string :=
  ["react"; "react-dom"; "react-router"; "antd-mobile"; "antd-mobile-icons";
   "i18next"; "react-i18next"; "nano"; "bip39"; "argon2"; "crypto";
   "@capacitor"; "firebase"].

(** Case analysis on the substrings in the order of the rules: once one
    occurs, the chunk is known. *)
Ltac settle_chunk :=
  split; [reflexivity|];
  split; [cbn; repeat (first [left; reflexivity | right])|];
  split; [reflexivity|];
  split; intros H; first [reflexivity | discriminate H].

Ltac by_rules id substrings :=
  lazymatch substrings with
  | @nil _ => settle_chunk
  | @cons _ ?p ?rest =>
      destruct (includes id p); cbn [orb negb andb];
      [settle_chunk | by_rules id rest]
  end.
End ManualChunks.

(** ** deepEqual *)

Module DeepEqual.

(** JavaScript values without cycles.  Functions, arrays and objects carry
    the reference that [===] compares; arrays are dense; an object is the
    list of its own enumerable properties, each key once. *)
Inductive value :=
  | JUndefined
  | JNull
  | JBool (b : bool)
  | JNum (n : Z)
  | JNaN
  | JStr (s : string)
  | JFun (ref : nat)
  | JArr (ref : nat) (items : list value)
  | JObj (ref : nat) (props : list (string * value)).

(** [a === b] *)
Definition strict_eq (a b : value) : bool :=
  match a, b with
  | JUndefined, JUndefined => true
  | JNull, JNull => true
  | JBool x, JBool y => Bool.eqb x y
  | JNum x, JNum y => Z.eqb x y
  | JStr x, JStr y => String.eqb x y
  | JFun r, JFun r' => Nat.eqb r r'
  | JArr r _, JArr r' _ => Nat.eqb r r'
  | JObj r _, JObj r' _ => Nat.eqb r r'
  | _, _ => false
  end.

(** [a == null] *)
Definition nullish (a : value) : bool :=
  match a with
  | JUndefined | JNull => true
  | _ => false
  end.

(** [typeof a === 'object'], for a value that is not [null]. *)
Definition is_object (a : value) : bool :=
  match a with
  | JArr _ _ | JObj _ _ => true
  | _ => false
  end.

(** The property key of the array index [i]. *)
Definition index_key (i : nat) : string := pretty i.

Fixpoint get_index (key : string) (i : nat) (items : list value) : value :=
  match items with
  | [] => JUndefined
  | x :: rest => if String.eqb key (index_key i) then x else get_index key (S i) rest
  end.

Fixpoint get_own (key : string) (props : list (string * value)) : value :=
  match props with
  | [] => JUndefined
  | (k, x) :: rest => if String.eqb key k then x else get_own key rest
  end.

(** [a[key]]; properties inherited from the prototypes are left out, but
    for the [length] of an array. *)
Definition get_prop (a : value) (key : string) : value :=
  match a with
  | JArr _ items =>
      if String.eqb key "length" then JNum (Z.of_nat (length items))
      else get_index key 0 items
  | JObj _ props => get_own key props
  | _ => JUndefined
  end.

(** [Object.keys(a)] *)
Definition keys (a : value) : list string :=
  match a with
  | JArr _ items => map index_key (seq 0 (length items))
  | JObj _ props => map fst props
  | _ => []
  end.

(** The two loops run over the items and the properties of [a]: [a[i]] is
    the item at [i], and [a[key]], for [key] of [Object.keys(a)], the value
    listed with [key]. *)
Fixpoint deepEqual (a b : value) {struct a} : bool :=
  if strict_eq a b then true
  else if nullish a || nullish b then false
  else
    match a with
    | JArr _ xs =>
        match b with
        | JArr _ ys =>
            if negb (Nat.eqb (length xs) (length ys)) then false
            else
              (fix loop (i : nat) (xs : list value) : bool :=
                 match xs with
                 | [] => true
                 | x :: xs' =>
                     if negb (deepEqual x (nth i ys JUndefined)) then false
                     else loop (S i) xs'
                 end) O xs
        | JObj _ _ =>
            if negb (Nat.eqb (length xs) (length (keys b))) then false
            else
              (fix loop (i : nat) (xs : list value) : bool :=
                 match xs with
                 | [] => true
                 | x :: xs' =>
                     if negb (deepEqual x (get_prop b (index_key i))) then false
                     else loop (S i) xs'
                 end) O xs
        | _ => false
        end
    | JObj _ ps =>
        if is_object b then
          if negb (Nat.eqb (length ps) (length (keys b))) then false
          else
            (fix loop (ps : list (string * value)) : bool :=
               match ps with
               | [] => true
               | (key, x) :: ps' =>
                   if negb (deepEqual x (get_prop b key)) then false
                   else loop ps'
               end) ps
        else false
    | _ => false
    end.
End DeepEqual.
(** ** deepEqual: the loops by name, and classes of values *)

Module DeepEqualShapes.
Import DeepEqual.

(** The loop of the array branch, over the items of [a] from index [i]. *)
Fixpoint items_loop (ys : list value) (i : nat) (xs : list value) : bool :=
  match xs with
  | [] => true
  | x :: xs' =>
      if negb (deepEqual x (nth i ys JUndefined)) then false
      else items_loop ys (S i) xs'
  end.

(** The loop of the object branch when [a] is an array. *)
Fixpoint index_loop (b : value) (i : nat) (xs : list value) : bool :=
  match xs with
  | [] => true
  | x :: xs' =>
      if negb (deepEqual x (get_prop b (index_key i))) then false
      else index_loop b (S i) xs'
  end.

(** The loop of the object branch when [a] is an object. *)
Fixpoint props_loop (b : value) (ps : list (string * value)) : bool :=
  match ps with
  | [] => true
  | (key, x) :: ps' =>
      if negb (deepEqual x (get_prop b key)) then false
      else props_loop b ps'
  end.

Definition is_nan (a : value) : bool :=
  match a with JNaN => true | _ => false end.

(** Values with no object in them: primitives, functions, and arrays of
    such values. *)
Fixpoint object_free (a : value) : bool :=
  match a with
  | JObj _ _ => false
  | JArr _ xs => forallb object_free xs
  | _ => true
  end.

(** Values with no [NaN] in them, whose objects list each key once. *)
Fixpoint clean (a : value) : bool :=
  match a with
  | JNaN => false
  | JArr _ xs => forallb clean xs
  | JObj _ ps =>
      bool_decide (NoDup (map fst ps)) && forallb (fun kv => clean (snd kv)) ps
  | _ => true
  end.

(** A value with the references of its arrays and objects forgotten: two
    values with the same [shape] are copies of each other.  Functions keep
    their reference. *)
Fixpoint shape (a : value) : value :=
  match a with
  | JArr _ xs => JArr O (map shape xs)
  | JObj _ ps => JObj O (map (fun kv => (fst kv, shape (snd kv))) ps)
  | _ => a
  end.

(** [f] holds of the items of two lists, pair by pair. *)
Fixpoint all2 (f : value -> value -> bool) (xs ys : list value) : bool :=
  match xs, ys with
  | [], [] => true
  | x :: xs', y :: ys' => f x y && all2 f xs' ys'
  | _, _ => false
  end.
End DeepEqualShapes.

(** ** The hooks of use-optimized-memo.ts *)

(** A component that uses a hook is rendered again and again: [mount] is
    the hook's body on the first render and [update] its body on a later
    one.  [useRef] keeps a cell from one render to the next and reads its
    argument on the first render only; [useCallback] and [useEffect] compare
    their dependency lists item by item with [Object.is]. *)
Module Hooks.
Import DeepEqual.

Module DeepCallback.
Section UseDeepCallback.
Context {Cb : Type}.

(** [ref] and [depsRef] are the two refs of the hook; [kept] is the
    function [useCallback] keeps: its dependency list is [[]], which never
    changes, so it keeps the function it was given on the first render. *)
Record cells := Cells { ref : Cb; depsRef : DeepEqual.value; kept : Cb }.

Definition mount (callback : Cb) (deps : DeepEqual.value) : Cb * cells :=
  let ref0 := callback in
  let depsRef0 := deps in
  let changed := negb (deepEqual depsRef0 deps) in
  let ref1 := if changed then callback else ref0 in
  let depsRef1 := if changed then deps else depsRef0 in
  (ref1, Cells ref1 depsRef1 ref1).

Definition update (callback : Cb) (deps : DeepEqual.value) (c : cells) : Cb * cells :=
  let changed := negb (deepEqual (depsRef c) deps) in
  let ref1 := if changed then callback else ref c in
  let depsRef1 := if changed then deps else depsRef c in
  (kept c, Cells ref1 depsRef1 (kept c)).

(** What the hook returns on each of the renders that follow, and its cells
    after them. *)
Fixpoint updates (rs : list (Cb * DeepEqual.value)) (c : cells) : list Cb * cells :=
  match rs with
  | [] => ([], c)
  | (callback, deps) :: rs' =>
      let '(out, c1) := update callback deps c in
      let '(outs, c2) := updates rs' c1 in
      (out :: outs, c2)
  end.

Definition useDeepCallback (first : Cb * DeepEqual.value)
  (rest : list (Cb * DeepEqual.value)) : list Cb * cells :=
  let '(out, c) := mount (fst first) (snd first) in
  let '(outs, c') := updates rest c in
  (out :: outs, c').
End UseDeepCallback.
Arguments cells : clear implicits.
End DeepCallback.

Module DeepEffect.
(** [ref] and [signalRef] are the two refs of the hook; [seen] is the
    dependency list [[signalRef.current]] that [useEffect] saw last. *)
Record cells := Cells { ref : DeepEqual.value; signalRef : nat; seen : nat }.

(** A render gives [true] when the effect runs after it.  On the first
    render it always does. *)
Definition mount (deps : DeepEqual.value) : bool * cells :=
  let ref0 := deps in
  let signal0 := O in
  let changed := negb (deepEqual ref0 deps) in
  let ref1 := if changed then deps else ref0 in
  let signal1 := if changed then S signal0 else signal0 in
  (true, Cells ref1 signal1 signal1).

Definition update (deps : DeepEqual.value) (c : cells) : bool * cells :=
  let changed := negb (deepEqual (ref c) deps) in
  let ref1 := if changed then deps else ref c in
  let signal1 := if changed then S (signalRef c) else signalRef c in
  (negb (Nat.eqb signal1 (seen c)), Cells ref1 signal1 signal1).

Fixpoint updates (ds : list DeepEqual.value) (c : cells) : list bool * cells :=
  match ds with
  | [] => ([], c)
  | deps :: ds' =>
      let '(ran, c1) := update deps c in
      let '(rans, c2) := updates ds' c1 in
      (ran :: rans, c2)
  end.

Definition useDeepEffect (first : DeepEqual.value) (rest : list DeepEqual.value)
  : list bool :=
  let '(ran, c) := mount first in ran :: fst (updates rest c).

(** What the hook is for: the effect runs after a render whose dependency
    list is not deep-equal to the one it last ran for. *)
Fixpoint deep_changes (last_run : DeepEqual.value) (ds : list DeepEqual.value)
  : list bool :=
  match ds with
  | [] => []
  | deps :: ds' =>
      if deepEqual last_run deps then false :: deep_changes last_run ds'
      else true :: deep_changes deps ds'
  end.
End DeepEffect.

Module Previous.
Section UsePrevious.
Context {V : Type} `{EqDecision V}.

(** [ref] is the ref of the hook ([None] is [undefined]); [seen] is the
    dependency list [[value]] that [useEffect] saw last. *)
Record cells := Cells { ref : option V; seen : V }.

(** The hook returns [ref.current] as the render finds it; the effect
    assigns it after the render. *)
Definition mount (value : V) : option V * cells :=
  (None, Cells (Some value) value).

Definition update (value : V) (c : cells) : option V * cells :=
  (ref c,
   if bool_decide (value = seen c) then Cells (ref c) value
   else Cells (Some value) value).

Fixpoint updates (vs : list V) (c : cells) : list (option V) :=
  match vs with
  | [] => []
  | value :: vs' =>
      let '(out, c1) := update value c in out :: updates vs' c1
  end.

Definition usePrevious (first : V) (rest : list V) : list (option V) :=
  let '(out, c) := mount first in out :: updates rest c.
End UsePrevious.
Arguments cells : clear implicits.
End Previous.
End Hooks.

(** ** manualChunks: the rules without the tests that decide nothing *)

Module ChunkRules.
Local Open Scope string_scope.

(** [react-dom], [react-router] and [react-i18next] contain [react], and
    [antd-mobile-icons] contains [antd-mobile]. *)
Definition slim_rules : list (list string * string) :=
  [(["react"], "vendor-react");
   (["antd-mobile"], "vendor-ui");
   (["i18next"], "vendor-i18n");
   (["nano"; "bip39"; "argon2"; "crypto"], "vendor-crypto");
   (["@capacitor"], "vendor-capacitor");
   (["firebase"], "vendor-firebase")].
End ChunkRules.

(** ** addPassiveEventListener *)

Module Listener.
Section Options.
Context {V : Type}.

(** The properties of an object literal are defined from left to right,
    and [...options] defines the own properties of [options] in their
    order; a property defined twice keeps the later value. *)
Definition define (m : gmap string V) (kv : string * V) : gmap string V :=
  <[fst kv := snd kv]> m.

(** The third argument of [target.addEventListener]:
    [{ passive: true, ...options }].  [yes] is the value [true]; [options]
    is [None] when the caller leaves it out. *)
Definition listener_options (yes : V) (options : option (list (string * V)))
  : gmap string V :=
  foldl define {["passive"%string := yes]} (default [] options).
End Options.
End Listener.

(** ** isInViewport *)

Module Viewport.
Local Open Scope Q_scope.

(** The rectangle of [getBoundingClientRect], in CSS pixels. *)
Record rect := Rect { top : Q; left : Q; bottom : Q; right : Q }.

(** [a || b] on numbers: [0] is falsy. *)
Definition or_else (a b : Q) : Q := if Qeq_bool a 0 then b else a.

Definition isInViewport (r : rect)
  (innerHeight clientHeight innerWidth clientWidth : Q) : bool :=
  Qle_bool 0 (top r) &&
  Qle_bool 0 (left r) &&
  Qle_bool (bottom r) (or_else innerHeight clientHeight) &&
  Qle_bool (right r) (or_else innerWidth clientWidth).
End Viewport.

(** ** requestIdleCallback and cancelIdleCallback, where the browser has none *)

Module IdleCallback.
Section Polyfill.
Context {Cb : Type}.

(** [(cb) => setTimeout(cb, 1)]: the options of the caller are not read. *)
Definition requestIdleCallback (cb : Cb) (h : Host.host Cb) : nat * Host.host Cb :=
  Host.setTimeout cb 1 h.

(** [(id) => clearTimeout(id)] *)
Definition cancelIdleCallback (id : nat) (h : Host.host Cb) : Host.host Cb :=
  Host.clearTimeout id h.

(** The handles of the pending timers were all handed out already. *)
Definition handles_used (h : Host.host Cb) : Prop :=
  Forall (fun tm => (Host.timer_id tm < Host.next_id h)%nat) (Host.pending h).
End Polyfill.
End IdleCallback.

(** * Properties *)

(** ** Timers and times *)

Lemma expire_only {Cb : Type} (t c due : Z) (id nid : nat) (cb : Cb) :
  c <= t -> due <= t ->
  Host.expire t id (Host.Host c nid [Host.Timer id due cb])
  = Some (cb, Host.Host t nid []).
Proof.
  intros Hc Hd. unfold Host.expire, Host.find_timer, Host.other_than. cbn.
  rewrite Nat.eqb_refl. cbn.
  destruct (Z.leb_spec c t); [|lia]. destruct (Z.leb_spec due t); [|lia].
  reflexivity.
Qed.

Lemma expire_only_inv {Cb : Type} (t c due : Z) (id id' nid : nat) (cb cb' : Cb)
  (h' : Host.host Cb) :
  Host.expire t id (Host.Host c nid [Host.Timer id' due cb]) = Some (cb', h') ->
  id' = id /\ cb' = cb /\ c <= t /\ due <= t /\ h' = Host.Host t nid [].
Proof.
  unfold Host.expire, Host.find_timer, Host.other_than.
  cbn [Host.pending Host.clock Host.next_id find filter Host.timer_id Host.timer_due Host.timer_cb].
  destruct (Nat.eqb_spec id' id) as [->|Hne]; [|discriminate].
  cbn [Host.timer_due Host.timer_cb negb].
  destruct (Z.leb_spec c t); cbn; [|discriminate].
  destruct (Z.leb_spec due t); cbn; [|discriminate].
  intros [= <- <-]. rewrite Nat.eqb_refl. repeat split; assumption.
Qed.

Lemma expire_none {Cb : Type} (t c : Z) (id nid : nat) :
  Host.expire t id (Host.Host c nid (@nil (Host.timer Cb))) = None.
Proof. reflexivity. Qed.

Lemma spaced_snoc (w : Z) (ts : list Z) (t0 t : Z) :
  spaced w ts -> last ts = Some t0 -> t0 + w <= t -> spaced w (ts ++ [t]).
Proof.
  induction ts as [|a [|b ts] IH]; cbn; intros Hs Hl Ht.
  - exact I.
  - injection Hl as ->. split; [exact Ht|exact I].
  - destruct Hs as [Hab Hs]. split; [exact Hab|]. apply IH; assumption.
Qed.

Section LazyFacts.
Import LazyWithRetry.
Context {Mod Err : Type}.
Variable importFunc : nat -> reply Mod Err.
Variables retries interval : Z.
Variable lateness : nat -> Z.

Local Abbreviation state := (LazyWithRetry.state Mod Err).
Local Abbreviation on_settled := (LazyWithRetry.on_settled (Mod:=Mod) (Err:=Err) interval).
Local Abbreviation tick := (LazyWithRetry.tick importFunc interval lateness).
Local Abbreviation run := (LazyWithRetry.run importFunc interval lateness).
Local Abbreviation load := (LazyWithRetry.load importFunc retries).
Local Abbreviation importing := (LazyWithRetry.importing importFunc retries interval).
Local Abbreviation waiting := (LazyWithRetry.waiting (Mod:=Mod) (Err:=Err) retries interval).
Local Abbreviation finished := (LazyWithRetry.finished (Mod:=Mod) (Err:=Err) interval).

Lemma run_add (a b : nat) (s : state) : run (a + b) s = run b (run a s).
Proof.
  revert s. induction a as [|a IH]; intros s; cbn; [reflexivity|].
  destruct (tick s) as [s'|] eqn:Ht; [apply IH|].
  destruct b; cbn; [reflexivity|]. rewrite Ht. reflexivity.
Qed.

Lemma run_idle (fuel : nat) (s : state) : tick s = None -> run fuel s = s.
Proof. intros Ht. destruct fuel; cbn; [|rewrite Ht]; reflexivity. Qed.

Lemma run_next (fuel : nat) (s s' : state) :
  tick (run fuel s) = Some s' -> run (S fuel) s = s'.
Proof.
  intros Ht. replace (S fuel) with (fuel + 1)%nat by lia.
  rewrite run_add. cbn. rewrite Ht. reflexivity.
Qed.

Lemma load_importing : importing 0 load.
Proof.
  unfold LazyWithRetry.importing, LazyWithRetry.load, attemptImport. cbn.
  exists [0], 0, (0 + Z.max 0 (latency (importFunc 0))), 1%nat. cbn.
  rewrite Z.sub_0_r. repeat split; lia.
Qed.

Lemma importing_rejected (j : nat) (s : state) (e : Err) :
  importing j s -> outcome (importFunc j) = Rejected e -> Z.of_nat j <> retries ->
  exists s', tick s = Some s' /\ waiting j s'.
Proof.
  intros (ts & t & t' & id & -> & Hlen & Hsp & Hlast & Hle) Ho Hj.
  rewrite Ho. unfold LazyWithRetry.tick. cbn.
  destruct (Z.eqb_spec (retries - Z.of_nat j) 0) as [Hz|_]; [lia|].
  eexists. split; [reflexivity|].
  exists ts, t, t', id, (t' + Z.max 0 interval). repeat split; try assumption; lia.
Qed.

Lemma waiting_fires (j : nat) (s : state) :
  waiting j s -> exists s', tick s = Some s' /\ importing (S j) s'.
Proof.
  intros (ts & t0 & t & id & due & -> & Hlen & Hsp & Hlast & Hdue & Hle).
  unfold LazyWithRetry.tick.
  cbn [fst snd inflight Host.pending Host.timer_id Host.timer_due Host.clock].
  rewrite expire_only by lia.
  eexists. split; [reflexivity|].
  unfold attemptImport. cbn [fst snd promise attempts Host.clock].
  rewrite Hlen.
  eexists _, _, _, _. split.
  { replace (retries - Z.of_nat (S j)) with (retries - Z.of_nat j - 1) by lia.
    reflexivity. }
  repeat split.
  - rewrite length_app, Hlen. cbn. lia.
  - eapply spaced_snoc; [exact Hsp|exact Hlast|lia].
  - rewrite last_snoc. reflexivity.
  - lia.
Qed.

Lemma importing_settles (j : nat) (s : state) :
  importing j s ->
  (Z.of_nat j = retries \/ exists m, outcome (importFunc j) = Fulfilled m) ->
  exists s', tick s = Some s' /\ finished (outcome (importFunc j)) j s'.
Proof.
  intros (ts & t & t' & id & -> & Hlen & Hsp & Hlast & Hle) Hj.
  unfold LazyWithRetry.tick. cbn [fst snd inflight promise attempts].
  eexists. split; [reflexivity|].
  unfold LazyWithRetry.on_settled, settle. cbn [fst snd promise inflight attempts].
  destruct (outcome (importFunc j)) as [m|e] eqn:Ho.
  - eexists _, _. repeat split; eauto.
  - destruct Hj as [Hj|[m Hm]]; [|discriminate].
    destruct (Z.eqb_spec (retries - Z.of_nat j) 0) as [_|Hz]; [|lia].
    eexists _, _. repeat split; eauto.
Qed.

Lemma finished_idle (o : settled Mod Err) (j : nat) (s : state) :
  finished o j s -> tick s = None.
Proof.
  intros (ts & h & -> & Hp & _). unfold LazyWithRetry.tick. cbn. rewrite Hp. reflexivity.
Qed.

(** While the attempts fail and retries are left, attempt [j] starts at
    the turn [2 * j] of the event loop. *)
Lemma climb (j : nat) :
  Z.of_nat j <= retries ->
  (forall i, (i < j)%nat -> exists e, outcome (importFunc i) = Rejected e) ->
  importing j (run (2 * j) load).
Proof.
  induction j as [|j IH]; intros Hj Hfail.
  - apply load_importing.
  - destruct (Hfail j) as [e He]; [lia|].
    destruct (importing_rejected j _ e (IH ltac:(lia) ltac:(intros; apply Hfail; lia)) He ltac:(lia))
      as (s1 & Ht1 & Hw).
    destruct (waiting_fires j s1 Hw) as (s2 & Ht2 & Hi).
    replace (2 * S j)%nat with (S (S (2 * j))) by lia.
    apply run_next in Ht1. rewrite <- Ht1 in Ht2. apply run_next in Ht2.
    rewrite Ht2. exact Hi.
Qed.

Lemma lands (j fuel : nat) :
  Z.of_nat j <= retries ->
  (forall i, (i < j)%nat -> exists e, outcome (importFunc i) = Rejected e) ->
  (Z.of_nat j = retries \/ exists m, outcome (importFunc j) = Fulfilled m) ->
  (2 * j + 1 <= fuel)%nat ->
  finished (outcome (importFunc j)) j (run fuel load).
Proof.
  intros Hj Hfail Hend Hfuel.
  destruct (importing_settles j _ (climb j Hj Hfail) Hend) as (s' & Ht & Hfin).
  replace fuel with (S (2 * j) + (fuel - (2 * j + 1)))%nat by lia.
  rewrite run_add. apply run_next in Ht. rewrite Ht.
  rewrite run_idle; [exact Hfin|]. eapply finished_idle, Hfin.
Qed.

(** When every attempt fails, the load goes through [importing 0],
    [waiting 0], [importing 1], ... one turn at a time, up to the rejection
    after attempt [retries]. *)
Lemma failing_turns (fuel : nat) :
  0 <= retries ->
  (forall k, exists e, outcome (importFunc k) = Rejected e) ->
  (exists j, fuel = (2 * j)%nat /\ Z.of_nat j <= retries /\
             importing j (run fuel load)) \/
  (exists j, fuel = (2 * j + 1)%nat /\ Z.of_nat j < retries /\
             waiting j (run fuel load)) \/
  ((2 * Z.to_nat retries + 1 <= fuel)%nat /\
   finished (outcome (importFunc (Z.to_nat retries))) (Z.to_nat retries)
            (run fuel load)).
Proof.
  intros Hr Hfail.
  destruct (Nat.le_gt_cases (2 * Z.to_nat retries + 1) fuel) as [Hbig|Hsmall].
  - right; right. split; [exact Hbig|].
    apply lands; [lia|intros; apply Hfail|left; lia|exact Hbig].
  - destruct (Nat.Even_or_Odd fuel) as [[j ->]|[j ->]].
    + left. exists j. split; [reflexivity|]. split; [lia|].
      apply climb; [lia|intros; apply Hfail].
    + right; left. exists j. split; [reflexivity|]. split; [lia|].
      destruct (Hfail j) as [e He].
      destruct (importing_rejected j _ e (climb j ltac:(lia) ltac:(intros; apply Hfail)) He ltac:(lia))
        as (s1 & Ht1 & Hw).
      apply run_next in Ht1. replace (2 * j + 1)%nat with (S (2 * j)) by lia.
      rewrite Ht1. exact Hw.
Qed.

(** C1. An import operation that fails on every attempt, under a retry
    count [retries >= 0]: at every turn of the event loop the operation has
    been called at most [retries + 1] times and the calls are at least
    [interval] apart; the promise is settled only after exactly
    [retries + 1] calls; and from turn [2 * retries + 1] on, which the loop
    reaches, the promise is rejected and nothing is left to run. *)
Theorem lazyWithRetry_attempts (fuel : nat) :
  0 <= retries ->
  (forall k, exists e, outcome (importFunc k) = Rejected e) ->
  let s := run fuel load in
  (length (attempts (fst s)) <= Z.to_nat retries + 1)%nat /\
  spaced interval (attempts (fst s)) /\
  (promise (fst s) <> None ->
   Z.of_nat (length (attempts (fst s))) = retries + 1) /\
  ((2 * Z.to_nat retries + 1 <= fuel)%nat ->
   (exists e, promise (fst s) = Some (Rejected e)) /\ tick s = None).
Proof.
  intros Hr Hfail s. subst s.
  destruct (failing_turns fuel Hr Hfail)
    as [(j & -> & Hj & Hs)|[(j & -> & Hj & Hs)|(Hbig & Hs)]].
  - destruct Hs as (ts & t & t' & id & -> & Hlen & Hsp & _). cbn.
    rewrite Hlen. repeat split; try assumption; try lia; congruence.
  - destruct Hs as (ts & t0 & t & id & due & -> & Hlen & Hsp & _). cbn.
    rewrite Hlen. repeat split; try assumption; try lia; congruence.
  - pose proof (finished_idle _ _ _ Hs) as Hidle.
    destruct Hs as (ts & h & Heq & Hp & Hlen & Hsp).
    rewrite Hidle. rewrite Heq. cbn.
    rewrite Hlen. repeat split; try assumption; try lia.
    destruct (Hfail (Z.to_nat retries)) as [e ->]. eauto.
Qed.

(** C2. The handlers of an attempt: a rejection with attempts left
    ([attemptsLeft] not 0) leaves the promise as it is and sets a timer of
    [interval] that runs [attemptImport (attemptsLeft - 1)]; a rejection
    with [attemptsLeft = 0] rejects the pending promise with that error; a
    fulfilment resolves it with the module.  And a whole load: when the
    attempts before number [j] fail, and attempt [j] succeeds or is the
    last one ([j = retries]), the promise settles as attempt [j] did, so
    with the module, or with the error of the final attempt, after
    [j + 1] calls, and the loop stops. *)
Theorem lazyWithRetry_outcome :
  (forall (s : state) (e : Err) (attemptsLeft : Z),
     attemptsLeft <> 0 ->
     let s' := on_settled (Rejected e) attemptsLeft s in
     promise (fst s') = promise (fst s) /\
     Host.pending (snd s') =
       Host.pending (snd s) ++
       [Host.Timer (Host.next_id (snd s))
                   (Host.clock (snd s) + Z.max 0 interval)
                   (Retry (attemptsLeft - 1))]) /\
  (forall (s : state) (e : Err),
     promise (fst s) = None ->
     let s' := on_settled (Rejected e) 0 s in
     promise (fst s') = Some (Rejected e) /\ snd s' = snd s) /\
  (forall (s : state) (m : Mod) (attemptsLeft : Z),
     promise (fst s) = None ->
     let s' := on_settled (Fulfilled m) attemptsLeft s in
     promise (fst s') = Some (Fulfilled m) /\ snd s' = snd s) /\
  (forall (j fuel : nat),
     Z.of_nat j <= retries ->
     (forall i, (i < j)%nat -> exists e, outcome (importFunc i) = Rejected e) ->
     (Z.of_nat j = retries \/ exists m, outcome (importFunc j) = Fulfilled m) ->
     (2 * j + 1 <= fuel)%nat ->
     let s := run fuel load in
     promise (fst s) = Some (outcome (importFunc j)) /\
     length (attempts (fst s)) = S j /\
     tick s = None).
Proof.
  split; [|split; [|split]].
  - intros s e n Hn. unfold LazyWithRetry.on_settled.
    destruct (Z.eqb_spec n 0) as [?|_]; [contradiction|]. cbn. split; reflexivity.
  - intros s e Hp. unfold LazyWithRetry.on_settled, settle. cbn. rewrite Hp.
    split; reflexivity.
  - intros s m n Hp. unfold LazyWithRetry.on_settled, settle. rewrite Hp.
    split; reflexivity.
  - intros j fuel Hj Hfail Hend Hfuel.
    pose proof (lands j fuel Hj Hfail Hend Hfuel) as Hfin.
    pose proof (finished_idle _ _ _ Hfin) as Hidle.
    destruct Hfin as (ts & h & Heq & Hp & Hlen & Hsp).
    cbn zeta. rewrite Hidle, Heq. cbn. auto.
Qed.
End LazyFacts.

(** ** Runs of a helper instance *)

Section LoopFacts.
Context {Args Cb L : Type}.
Variable on_call : Args -> L * Host.host Cb -> L * Host.host Cb.
Variable on_timer : Cb -> L * Host.host Cb -> L * Host.host Cb.

Lemma run_snoc (tr : list (Host.event Args)) (e : Host.event Args) (s : L * Host.host Cb) :
  Host.run on_call on_timer (tr ++ [e]) s =
  match Host.run on_call on_timer tr s with
  | Some s' => Host.step on_call on_timer e s'
  | None => None
  end.
Proof.
  revert s. induction tr as [|e' tr IH]; intros s; cbn.
  - destruct (Host.step on_call on_timer e s); reflexivity.
  - destruct (Host.step on_call on_timer e' s); [apply IH|reflexivity].
Qed.

(** A property that every step keeps holds after every run. *)
Lemma run_invariant (P : L * Host.host Cb -> Prop) :
  (forall e s s', P s -> Host.step on_call on_timer e s = Some s' -> P s') ->
  forall tr s s', P s -> Host.run on_call on_timer tr s = Some s' -> P s'.
Proof.
  intros Hstep tr. induction tr as [|e tr IH]; intros s s' Hs; cbn.
  - intros [= <-]. exact Hs.
  - destruct (Host.step on_call on_timer e s) as [s1|] eqn:He; [|discriminate].
    apply IH. exact (Hstep e s s1 Hs He).
Qed.

Lemma calls_of_snoc (tr : list (Host.event Args)) (e : Host.event Args) :
  Host.calls_of (tr ++ [e]) =
  Host.calls_of tr ++ match e with Host.Call t a => [(t, a)] | Host.Fire _ _ => [] end.
Proof.
  induction tr as [|[t a|t id] tr IH]; cbn.
  - destruct e; reflexivity.
  - rewrite IH. reflexivity.
  - exact IH.
Qed.
End LoopFacts.

Lemma within_snoc (w : Z) (ts : list Z) (t : Z) :
  within w (ts ++ [t]) ->
  within w ts /\ forall t0, last ts = Some t0 -> t - t0 < w.
Proof.
  induction ts as [|a [|b ts] IH]; cbn.
  - intros _. split; [exact I|discriminate].
  - intros [H _]. split; [exact I|]. intros t0 [= <-]. exact H.
  - intros [Hab H]. destruct (IH H) as [Hw Hl]. split; [split; assumption|exact Hl].
Qed.

Lemma last_map {A B : Type} (f : A -> B) (l : list A) :
  last (map f l) = option_map f (last l).
Proof.
  induction l as [|a [|b l] IH]; [reflexivity|reflexivity|exact IH].
Qed.

Section DebounceFacts.
Import Debounce.
Context {Args : Type}.
Variable wait : Z.

Local Abbreviation state := (Debounce.state Args).
Local Abbreviation create := (Debounce.create (Args:=Args)).
Local Abbreviation step := (Debounce.step (Args:=Args) wait).
Local Abbreviation run := (Debounce.run (Args:=Args) wait).
Local Abbreviation tidy := (Debounce.tidy (Args:=Args)).
Local Abbreviation armed := (Debounce.armed (Args:=Args) wait).
Local Abbreviation fired := (Debounce.fired (Args:=Args) wait).

Lemma tidy_create : tidy create.
Proof. split; [exists O; reflexivity|]. left. split; reflexivity. Qed.

(** A call leaves exactly the timer it sets. *)
Lemma tidy_call (t : Z) (args : Args) (s s' : state) :
  tidy s -> step (Host.Call t args) s = Some s' ->
  tidy s' /\
  Host.clock (snd s') = t /\
  invoked (fst s') = invoked (fst s) /\
  timeout (fst s') = Some (Host.next_id (snd s)) /\
  Host.pending (snd s') =
    [Host.Timer (Host.next_id (snd s)) (t + Z.max 0 wait) (Later args)].
Proof.
  intros [[k Hk] Hs]. unfold Debounce.step, Host.step, Host.advance.
  destruct s as [[slot log] [c nid q]]. cbn in *. subst nid.
  destruct (Z.leb c t); [|discriminate]. intros [= <-].
  unfold executedFunction, Host.setTimeout, Host.clearTimeout, Host.other_than.
  destruct Hs as [[-> ->]|(id & due & a & -> & ->)]; cbn;
    rewrite ?Nat.eqb_refl; cbn;
    (split; [split; [exists (S k); reflexivity|right; eauto]|auto]).
Qed.

(** The host can run no timer but the pending one, and not before it is
    due; running it calls [func] with the arguments it captured. *)
Lemma tidy_fire (t : Z) (id : nat) (s s' : state) :
  tidy s -> step (Host.Fire t id) s = Some s' ->
  exists due args,
    Host.pending (snd s) = [Host.Timer id due (Later args)] /\
    timeout (fst s) = Some id /\
    due <= t /\ Host.clock (snd s) <= t /\
    s' = (Vars None (invoked (fst s) ++ [(t, args)]),
          Host.Host t (Host.next_id (snd s)) []).
Proof.
  intros [_ Hs]. unfold Debounce.step, Host.step.
  destruct s as [[slot log] [c nid q]]. cbn [fst snd] in *.
  destruct Hs as [[Hslot Hq]|(id' & due & a & Hslot & Hq)]; cbn in Hslot, Hq; subst.
  - rewrite expire_none. discriminate.
  - destruct (Host.expire _ _ _) as [[cb h]|] eqn:He; [|discriminate].
    apply expire_only_inv in He. destruct He as (-> & -> & Hc & Hd & ->).
    intros [= <-]. exists due, a. cbn. auto.
Qed.

Lemma tidy_step (e : Host.event Args) (s s' : state) :
  tidy s -> step e s = Some s' -> tidy s'.
Proof.
  intros Hs Hstep. destruct e as [t args|t id].
  - apply (tidy_call t args s s' Hs Hstep).
  - destruct (tidy_fire t id s s' Hs Hstep) as (due & a & Hq & _ & _ & _ & ->).
    destruct Hs as [Hk _]. split; [exact Hk|]. left. split; reflexivity.
Qed.

Lemma tidy_run (tr : list (Host.event Args)) (s s' : state) :
  tidy s -> run tr s = Some s' -> tidy s'.
Proof. apply run_invariant. exact tidy_step. Qed.

(** The timer of an armed instance can run at any time from its due time
    on, and calls [func] with the arguments of the last call. *)
Lemma armed_fire (tl t : Z) (al : Args) (s : state) :
  armed tl al s -> tl + Z.max 0 wait <= t ->
  exists id s',
    Host.pending (snd s) = [Host.Timer id (tl + Z.max 0 wait) (Later al)] /\
    step (Host.Fire t id) s = Some s' /\
    invoked (fst s') = [(t, al)] /\ Host.pending (snd s') = [].
Proof.
  intros (id & nid & Hv & Hh) Ht. destruct s as [v h]. cbn in *. subst v h.
  exists (S id). eexists. split; [reflexivity|].
  unfold Debounce.step, Host.step. rewrite expire_only by lia.
  cbn. auto.
Qed.

(** The shape of an instance after a run whose calls come less than [wait]
    apart. *)
Lemma burst_shape (tr : list (Host.event Args)) (s : state) :
  run tr create = Some s ->
  within wait (map fst (Host.calls_of tr)) ->
  match last (Host.calls_of tr) with
  | None => s = create
  | Some (tl, al) => armed tl al s \/ fired tl al s
  end.
Proof.
  revert s. induction tr as [|e tr IH] using rev_ind; intros s.
  - cbn. intros [= <-] _. reflexivity.
  - unfold Debounce.run. rewrite run_snoc, calls_of_snoc, map_app.
    destruct (Host.run _ _ tr create) as [s0|] eqn:Hrun; [|discriminate].
    pose proof (tidy_run tr _ _ tidy_create Hrun) as Htidy.
    intros Hstep Hw. destruct e as [t args|t id].
    + cbn [map fst] in Hw. apply within_snoc in Hw. destruct Hw as [Hw Hlast].
      rewrite last_snoc. specialize (IH s0 Hrun Hw).
      destruct (tidy_call t args s0 s Htidy Hstep) as (_ & Hc & Hlog & Hslot & Hq).
      left.
      assert (Hnid : exists k, Host.next_id (snd s0) = S k) by apply Htidy.
      destruct Hnid as [k Hk].
      assert (Hnext : Host.next_id (snd s) = S (S k)).
      { revert Hstep. unfold Debounce.step, Host.step, Host.advance.
        destruct (Z.leb _ _); [|discriminate]. intros [= <-].
        unfold executedFunction, Host.setTimeout, Host.clearTimeout. cbn.
        destruct (truthy _); cbn; rewrite <- Hk; reflexivity. }
      assert (Hnone : invoked (fst s0) = []).
      { destruct (last (Host.calls_of tr)) as [[tl al]|] eqn:Hl.
        - destruct IH as [(id & nid & -> & _)|(tf & Hv & Hq0 & Htf & Hcl)];
            [reflexivity|].
          exfalso.
          assert (Hlt : t - tl < wait).
          { apply (Hlast tl). rewrite last_map, Hl. reflexivity. }
          revert Hstep. unfold Debounce.step, Host.step, Host.advance.
          destruct (Z.leb_spec (Host.clock (snd s0)) t); [|discriminate]. lia.
        - subst s0. reflexivity. }
      exists k, (S (S k)). destruct s as [[slot log] [c nid q]]. cbn in *.
      subst. rewrite Hk, Hnone. split; reflexivity.
    + rewrite app_nil_r in *. specialize (IH s0 Hrun Hw).
      destruct (tidy_fire t id s0 s Htidy Hstep) as (due & a & Hq & Hslot & Hdue & Hc & ->).
      destruct (last (Host.calls_of tr)) as [[tl al]|] eqn:Hl.
      * destruct IH as [(id' & nid & Hv & Hh)|(tf & Hv & Hq0 & _)].
        -- right. rewrite Hh in Hq. cbn in Hq. injection Hq as <- <- <-.
           exists t. rewrite Hv. cbn. repeat split; [exact Hdue|lia].
        -- rewrite Hq0 in Hq. discriminate.
      * subst s0. discriminate.
Qed.

(** C4. A debounced function with wait [wait], after any run whose calls
    come less than [wait] apart and whose last call came at [tl] with
    arguments [al]: either [func] has not been called yet, the timer of
    the last call is the one pending, and the host can run it at any time
    from [tl + wait] on, which calls [func] once with [al]; or that has
    happened, and [func] was called exactly once, with [al], at a time
    [t >= tl + wait]. *)
Theorem debounce_last_call_wins
  (tr : list (Host.event Args)) (s : state) (tl : Z) (al : Args) :
  run tr create = Some s ->
  within wait (map fst (Host.calls_of tr)) ->
  last (Host.calls_of tr) = Some (tl, al) ->
  (invoked (fst s) = [] /\
   forall t, tl + Z.max 0 wait <= t ->
     exists id s',
       Host.pending (snd s) = [Host.Timer id (tl + Z.max 0 wait) (Later al)] /\
       step (Host.Fire t id) s = Some s' /\
       invoked (fst s') = [(t, al)] /\ Host.pending (snd s') = [])
  \/
  (exists t, invoked (fst s) = [(t, al)] /\ tl + wait <= t /\
             Host.pending (snd s) = []).
Proof.
  intros Hrun Hw Hl. pose proof (burst_shape tr s Hrun Hw) as Hs.
  rewrite Hl in Hs. destruct Hs as [Ha|(t & Hv & Hq & Ht & _)].
  - left. split.
    + destruct Ha as (id & nid & -> & _). reflexivity.
    + intros t Ht. apply armed_fire; assumption.
  - right. exists t. rewrite Hv. cbn. repeat split; [lia|exact Hq].
Qed.
End DebounceFacts.

Section ThrottleFacts.
Import Throttle.
Context {Args E : Type}.
Variable func : Args -> completion unit E.
Variable limit : Z.

Local Abbreviation state := (Throttle.state Args).
Local Abbreviation create := (Throttle.create (Args:=Args)).
Local Abbreviation step := (Throttle.step func limit).
Local Abbreviation run := (Throttle.run func limit).

(** A call while the flag is set changes nothing but the clock. *)
Lemma throttled_call (t : Z) (args : Args) (s s' : state) :
  inThrottle (fst s) = true -> step (Host.Call t args) s = Some s' ->
  s' = (fst s, Host.Host t (Host.next_id (snd s)) (Host.pending (snd s))).
Proof.
  intros Hin. unfold Throttle.step, Host.step, Host.advance.
  destruct (Z.leb _ _); [|discriminate]. intros [= <-].
  unfold executedFunction. cbn [fst snd]. rewrite Hin. reflexivity.
Qed.

(** A call while the flag is not set calls [func], and sets the flag and
    the timer when [func] returns. *)
Lemma leading_call (t : Z) (args : Args) (s s' : state) :
  inThrottle (fst s) = false -> step (Host.Call t args) s = Some s' ->
  Host.clock (snd s) <= t /\
  invoked (fst s') = invoked (fst s) ++ [(t, args)] /\
  match func args with
  | Returns _ =>
      inThrottle (fst s') = true /\
      snd s' = Host.Host t (S (Host.next_id (snd s)))
                 (Host.pending (snd s) ++
                  [Host.Timer (Host.next_id (snd s)) (t + Z.max 0 limit) Reset])
  | Throws _ =>
      inThrottle (fst s') = false /\
      snd s' = Host.Host t (Host.next_id (snd s)) (Host.pending (snd s))
  end.
Proof.
  intros Hin. unfold Throttle.step, Host.step, Host.advance.
  destruct (Z.leb_spec (Host.clock (snd s)) t); [|discriminate]. intros [= <-].
  unfold executedFunction. cbn [fst snd]. rewrite Hin.
  destruct (func args); cbn; auto.
Qed.

End ThrottleFacts.

(** ** memoize and throttle under calls from inside the wrapped function *)

Section MemoizeMachineFacts.
Import MemoizeMachine.
Context {Args R E St : Type}.
Variable fn : Args -> code Args R E St.
Variable getKey : option (Args -> St -> completion string E * St).
Variable stringify : Args -> completion string E.

Local Abbreviation config := (MemoizeMachine.config Args R E St).
Local Abbreviation input := (MemoizeMachine.input Args).
Local Abbreviation caller := (option (completion R E -> code Args R E St)).
Local Abbreviation key_of := (Memoize.key_of getKey stringify).
Local Abbreviation memoized := (MemoizeMachine.memoized fn getKey stringify).
Local Abbreviation tick := (MemoizeMachine.tick fn getKey stringify).
Local Abbreviation step := (MemoizeMachine.step fn getKey stringify).
Local Abbreviation run := (MemoizeMachine.run fn getKey stringify).

(** A call on a key the cache holds answers from the cache. *)
Lemma machine_hit (args : Args) (from : caller) (cfg : config)
    (key : string) (w : St) (v : R) :
  key_of args (world cfg) = (Returns key, w) ->
  cache cfg !! key = Some v ->
  memoized args from cfg =
    resume from (Returns v)
      (Config (cache cfg) w (trace cfg ++ [Answered key (Returns v)])
              (stack cfg) (control cfg) (answer cfg)).
Proof.
  intros Hk Hc. unfold MemoizeMachine.memoized. rewrite Hk, Hc. reflexivity.
Qed.

(** A call on a key the cache lacks calls [fn]. *)
Lemma machine_miss (args : Args) (from : caller) (cfg : config)
    (key : string) (w : St) :
  key_of args (world cfg) = (Returns key, w) ->
  cache cfg !! key = None ->
  memoized args from cfg =
    Config (cache cfg) w (trace cfg ++ [Invoked key args])
           (Frame key from :: stack cfg) (Some (fn args)) (answer cfg).
Proof.
  intros Hk Hc. unfold MemoizeMachine.memoized. rewrite Hk, Hc. reflexivity.
Qed.

Lemma resume_fields (from : caller) (c : completion R E) (cfg : config) :
  cache (resume from c cfg) = cache cfg /\
  world (resume from c cfg) = world cfg /\
  trace (resume from c cfg) = trace cfg /\
  stack (resume from c cfg) = stack cfg.
Proof. destruct from; repeat split; reflexivity. Qed.

Lemma memoized_effect (args : Args) (from : caller) (cfg : config) :
  effect cfg (memoized args from cfg).
Proof.
  unfold MemoizeMachine.memoized.
  destruct (key_of args (world cfg)) as [[key|e] w].
  - destruct (cache cfg !! key) as [v|] eqn:Hc.
    + apply (Hit _ _ key v); [exact Hc|destruct from; reflexivity..].
    + apply (Miss _ _ key args from); [exact Hc|reflexivity..].
  - apply Silent; destruct from; cbn; auto using app_nil_r.
Qed.

Lemma step_effect (i : input) (cfg cfg' : config) :
  step i cfg = Some cfg' -> effect cfg cfg'.
Proof.
  destruct i as [args|]; cbn.
  - destruct (control cfg); [discriminate|]. intros [= <-]. apply memoized_effect.
  - unfold MemoizeMachine.tick. destruct (control cfg) as [[c|args k|update k]|]; [| | |discriminate].
    + unfold finish. destruct (stack cfg) as [|[key from] rest] eqn:Hst; [discriminate|].
      intros [= <-]. destruct c as [v|e].
      * apply (Store _ _ key from v); destruct from; cbn; congruence.
      * apply (Fail _ _ key from e); destruct from; cbn; congruence.
    + intros [= <-]. apply memoized_effect.
    + intros [= <-]. apply Silent; cbn; auto using app_nil_r.
Qed.

Lemma settled_step (key : string) (v : R) (i : input) (cfg cfg' : config) :
  settled key v cfg -> step i cfg = Some cfg' ->
  settled key v cfg' /\
  exists new, trace cfg' = trace cfg ++ new /\ Forall (agrees key v) new.
Proof.
  intros [Hc Hr] Hstep. unfold settled, running in *.
  destruct (step_effect i cfg cfg' Hstep)
    as [Hca Hst Htr|k u Hk Hca Hst Htr|k a from Hk Hca Hst Htr
        |k from u Hst Hca Htr|k from e Hst Hca Htr].
  - rewrite Hca, Hst, Htr. split; [auto|]. exists []. split; [reflexivity|constructor].
  - rewrite Hca, Hst, Htr. split; [auto|]. eexists. split; [reflexivity|].
    repeat constructor. cbn. intros ->. congruence.
  - rewrite Hca, Hst, Htr. split.
    + split; [exact Hc|]. cbn. rewrite not_elem_of_cons. split; [congruence|exact Hr].
    + eexists. split; [reflexivity|]. repeat constructor. cbn. congruence.
  - rewrite Hst in Hr. cbn in Hr. rewrite not_elem_of_cons in Hr. destruct Hr as [Hne Hr].
    rewrite Hca, Htr. split.
    + split; [|exact Hr]. rewrite lookup_insert_ne; [exact Hc|congruence].
    + eexists. split; [reflexivity|]. repeat constructor; cbn; congruence.
  - rewrite Hst in Hr. cbn in Hr. rewrite not_elem_of_cons in Hr. destruct Hr as [Hne Hr].
    rewrite Hca, Htr. split; [auto|].
    eexists. split; [reflexivity|]. repeat constructor; cbn; congruence.
Qed.

Lemma settled_run (key : string) (v : R) (l : list input) (cfg cfg' : config) :
  settled key v cfg -> run l cfg = Some cfg' ->
  settled key v cfg' /\
  exists new, trace cfg' = trace cfg ++ new /\ Forall (agrees key v) new.
Proof.
  revert cfg. induction l as [|i l IH]; intros cfg Hs; cbn.
  - intros [= <-]. split; [exact Hs|]. exists []. split; [symmetry; apply app_nil_r|constructor].
  - destruct (step i cfg) as [cfg1|] eqn:Hstep; [|discriminate]. intros Hrun.
    destruct (settled_step key v i cfg cfg1 Hs Hstep) as (Hs1 & new1 & Ht1 & Hf1).
    destruct (IH cfg1 Hs1 Hrun) as (Hs2 & new2 & Ht2 & Hf2).
    split; [exact Hs2|]. exists (new1 ++ new2). split.
    + rewrite Ht2, Ht1. symmetry. apply app_assoc.
    + apply Forall_app. split; assumption.
Qed.

(** A step never removes a key. *)
Lemma step_keeps_keys (i : input) (cfg cfg' : config) (key : string) :
  step i cfg = Some cfg' -> is_Some (cache cfg !! key) -> is_Some (cache cfg' !! key).
Proof.
  intros Hstep Hin.
  destruct (step_effect i cfg cfg' Hstep)
    as [Hca _ _|k u _ Hca _ _|k a from _ Hca _ _|k from u _ Hca _|k from e _ Hca _];
    rewrite Hca; try exact Hin.
  destruct (decide (k = key)) as [->|Hne].
  - rewrite lookup_insert_eq. eauto.
  - rewrite lookup_insert_ne; [exact Hin|exact Hne].
Qed.

Lemma run_keeps_keys (l : list input) (cfg cfg' : config) (key : string) :
  run l cfg = Some cfg' -> is_Some (cache cfg !! key) -> is_Some (cache cfg' !! key).
Proof.
  revert cfg. induction l as [|i l IH]; intros cfg; cbn.
  - intros [= <-]. auto.
  - destruct (step i cfg) as [cfg1|] eqn:Hstep; [|discriminate]. intros Hrun Hin.
    apply (IH cfg1 Hrun). exact (step_keeps_keys i cfg cfg1 key Hstep Hin).
Qed.

(** The cache changes by [cache.set] only: a key for which the trace
    shows no [Stored] has the value it had. *)
Lemma step_stores (i : input) (cfg cfg' : config) :
  step i cfg = Some cfg' ->
  exists new, trace cfg' = trace cfg ++ new /\
    forall key, (forall v, Stored key v ∉ new) -> cache cfg' !! key = cache cfg !! key.
Proof.
  intros Hstep.
  destruct (step_effect i cfg cfg' Hstep)
    as [Hca _ Htr|k u _ Hca _ Htr|k a from _ Hca _ Htr|k from u _ Hca Htr|k from e _ Hca Htr];
    (eexists; split; [exact Htr|]); intros key Hno; rewrite Hca; try reflexivity.
  apply lookup_insert_ne. intros ->. apply (Hno u). apply elem_of_cons. left. reflexivity.
Qed.

Lemma run_stores (l : list input) (cfg cfg' : config) :
  run l cfg = Some cfg' ->
  exists new, trace cfg' = trace cfg ++ new /\
    forall key, (forall v, Stored key v ∉ new) -> cache cfg' !! key = cache cfg !! key.
Proof.
  revert cfg. induction l as [|i l IH]; intros cfg; cbn.
  - intros [= <-]. exists []. split; [symmetry; apply app_nil_r|reflexivity].
  - destruct (step i cfg) as [cfg1|] eqn:Hstep; [|discriminate]. intros Hrun.
    destruct (step_stores i cfg cfg1 Hstep) as (new1 & Ht1 & Hc1).
    destruct (IH cfg1 Hrun) as (new2 & Ht2 & Hc2).
    exists (new1 ++ new2). split.
    + rewrite Ht2, Ht1. symmetry. apply app_assoc.
    + intros key Hno. rewrite Hc2, Hc1; [reflexivity| |].
      * intros v Hin. apply (Hno v). apply elem_of_app. left. exact Hin.
      * intros v Hin. apply (Hno v). apply elem_of_app. right. exact Hin.
Qed.

(** Code that does not call the memoized function runs to its end, and
    touches nothing but the state of user code. *)
Lemma outcome_run (c : code Args R E St) :
  forall (w w' : St) (r : completion R E),
  outcome c w = Some (r, w') ->
  forall ca tr st an,
  exists n, run (repeat Tick n) (Config ca w tr st (Some c) an)
            = Some (Config ca w' tr st (Some (Done r)) an).
Proof.
  induction c as [c|args k IH|update k IH]; intros w w' r; cbn [outcome].
  - intros [= <- <-] ca tr st an. exists 0%nat. reflexivity.
  - discriminate.
  - intros Ho ca tr st an.
    destruct (IH w (update w) w' r Ho ca tr st an) as [n Hn].
    exists (S n). exact Hn.
Qed.

Lemma run_app (l1 l2 : list input) (cfg : config) :
  run (l1 ++ l2) cfg =
  match run l1 cfg with
  | Some cfg' => run l2 cfg'
  | None => None
  end.
Proof.
  revert cfg. induction l1 as [|i l1 IH]; intros cfg; cbn; [reflexivity|].
  destruct (step i cfg); [apply IH|reflexivity].
Qed.

(** A call on a key the cache lacks, by an [fn] that does not call the
    memoized function on the way: the whole call. *)
Lemma machine_miss_run (args : Args) (from : caller) (cfg : config)
    (key : string) (w1 w2 : St) (r : completion R E) :
  key_of args (world cfg) = (Returns key, w1) ->
  cache cfg !! key = None ->
  outcome (fn args) w1 = Some (r, w2) ->
  exists n,
    run (repeat Tick n) (memoized args from cfg) =
    Some (resume from r
            match r with
            | Returns v =>
                Config (<[key := v]> (cache cfg)) w2
                       (trace cfg ++ [Invoked key args; Stored key v; Answered key r])
                       (stack cfg) (control cfg) (answer cfg)
            | Throws _ =>
                Config (cache cfg) w2
                       (trace cfg ++ [Invoked key args; Answered key r])
                       (stack cfg) (control cfg) (answer cfg)
            end).
Proof.
  intros Hk Hc Ho. rewrite (machine_miss args from cfg key w1 Hk Hc).
  destruct (outcome_run (fn args) w1 w2 r Ho (cache cfg) (trace cfg ++ [Invoked key args])
              (Frame key from :: stack cfg) (answer cfg)) as [n Hn].
  exists (n + 1)%nat. rewrite repeat_app, run_app, Hn. cbn.
  destruct r as [v|e]; destruct from; cbn; rewrite <- app_assoc; reflexivity.
Qed.

(** With an [fn] that never calls the memoized function, a call from
    outside gives what [Memoize.memoized] gives. *)
Lemma machine_agrees_with_memoized
    (fn1 : Args -> St -> completion R E * St) (args : Args) (cfg : config) :
  (forall a w, outcome (fn a) w = Some (fn1 a w)) ->
  control cfg = None ->
  exists n cfg',
    run (Call args :: repeat Tick n) cfg = Some cfg' /\
    control cfg' = None /\ stack cfg' = stack cfg /\
    let m := Memoize.Memo (cache cfg) (world cfg) (invocations_of (trace cfg)) in
    answer cfg' = Some (fst (Memoize.memoized fn1 getKey stringify args m)) /\
    cache cfg' = Memoize.cache (snd (Memoize.memoized fn1 getKey stringify args m)) /\
    world cfg' = Memoize.world (snd (Memoize.memoized fn1 getKey stringify args m)) /\
    invocations_of (trace cfg') =
      Memoize.invocations (snd (Memoize.memoized fn1 getKey stringify args m)).
Proof.
  intros Hfn Hidle. cbn [MemoizeMachine.run MemoizeMachine.step]. rewrite Hidle.
  assert (Hinv : forall tr ev, invocations_of (tr ++ ev) = invocations_of tr ++ invocations_of (Args:=Args) (R:=R) (E:=E) ev).
  { intros tr ev. induction tr as [|[k a|k v|k c] tr IH]; cbn; [reflexivity|f_equal; exact IH|exact IH..]. }
  unfold Memoize.memoized. cbn [Memoize.world Memoize.cache Memoize.invocations].
  destruct (key_of args (world cfg)) as [[key|e] w1] eqn:Hk.
  - destruct (cache cfg !! key) as [v|] eqn:Hc.
    + exists 0%nat. eexists. rewrite (machine_hit args None cfg key w1 v Hk Hc).
      split; [reflexivity|]. cbn. rewrite Hinv. cbn. rewrite app_nil_r. auto 10.
    + specialize (Hfn args w1). destruct (fn1 args w1) as [r w2].
      destruct (machine_miss_run args None cfg key w1 w2 r Hk Hc Hfn) as [n Hn].
      exists n. eexists. split; [exact Hn|].
      destruct r as [v|e]; cbn; rewrite Hinv; cbn; auto 10.
  - exists 0%nat. eexists. unfold MemoizeMachine.memoized. rewrite Hk.
    split; [reflexivity|]. cbn. auto 10.
Qed.

(** C3, amended: for a call that returns while no other call on its key is
    running.  When a step ends with the memoized function returning [v]
    for a call on [key], and no call on [key] is still running [fn], then
    whatever comes after, from outside or from inside [fn]: [fn] is not
    called for [key] again, [cache.set] is not called on [key], every
    answer on [key] is [v], and a call whose arguments give [key] returns
    [v] at once, from the cache. *)
Theorem memoize_settled_call_cached
    (cfg cfg1 : config) (i : input) (key : string) (v : R) (pre : list (event Args R E)) :
  step i cfg = Some cfg1 ->
  trace cfg1 = trace cfg ++ pre ++ [Answered key (Returns v)] ->
  key ∉ running cfg1 ->
  forall (l : list input) (cfg2 : config),
    run l cfg1 = Some cfg2 ->
    (exists later, trace cfg2 = trace cfg1 ++ later /\ Forall (agrees key v) later) /\
    forall (args : Args) (from : caller) (w : St),
      key_of args (world cfg2) = (Returns key, w) ->
      memoized args from cfg2 =
        resume from (Returns v)
          (Config (cache cfg2) w (trace cfg2 ++ [Answered key (Returns v)])
                  (stack cfg2) (control cfg2) (answer cfg2)).
Proof.
  intros Hstep Htr Hr l cfg2 Hrun.
  assert (Hs : settled key v cfg1).
  { split; [|exact Hr].
    destruct (step_effect i cfg cfg1 Hstep)
      as [Hca Hst Ht|k u Hk Hca Hst Ht|k a from Hk Hca Hst Ht
          |k from u Hst Hca Ht|k from e Hst Hca Ht];
      rewrite Ht in Htr; apply app_inv_head in Htr.
    - destruct pre; discriminate.
    - destruct pre as [|ev [|ev' pre]]; [|discriminate..].
      injection Htr as -> ->. rewrite Hca. exact Hk.
    - destruct pre as [|ev [|ev' pre]]; discriminate.
    - destruct pre as [|ev [|ev' [|ev'' pre]]]; [discriminate| |discriminate..].
      injection Htr as _ -> ->. rewrite Hca. apply lookup_insert_eq.
    - destruct pre as [|ev [|ev' pre]]; discriminate. }
  destruct (settled_run key v l cfg1 cfg2 Hs Hrun) as [[Hc2 _] Hlater].
  split; [exact Hlater|].
  intros args from w Hk. exact (machine_hit args from cfg2 key w v Hk Hc2).
Qed.

(** C6, amended: a value changes only under a call on its key that is
    still running.  Across every sequence of calls and steps no key leaves
    the cache; a key that is present while no call on it is running keeps
    its value, so while no call at all is running the cache only grows;
    and a hit on a key returns the value the cache holds. *)
Theorem memoize_cache_keeps_settled (l : list input) (cfg cfg' : config) :
  run l cfg = Some cfg' ->
  (forall key, is_Some (cache cfg !! key) -> is_Some (cache cfg' !! key)) /\
  (forall key v, cache cfg !! key = Some v -> key ∉ running cfg ->
                 cache cfg' !! key = Some v /\ key ∉ running cfg') /\
  (stack cfg = [] -> cache cfg ⊆ cache cfg') /\
  forall (args : Args) (from : caller) (key : string) (w : St) (v : R),
    key_of args (world cfg') = (Returns key, w) ->
    cache cfg' !! key = Some v ->
    let cfg'' := memoized args from cfg' in
    cache cfg'' = cache cfg' /\
    trace cfg'' = trace cfg' ++ [Answered key (Returns v)] /\
    match from with
    | Some k => control cfg'' = Some (k (Returns v))
    | None => control cfg'' = None /\ answer cfg'' = Some (Returns v)
    end.
Proof.
  intros Hrun.
  assert (Hkeep : forall key v, cache cfg !! key = Some v -> key ∉ running cfg ->
                                cache cfg' !! key = Some v /\ key ∉ running cfg').
  { intros key v Hc Hr. exact (proj1 (settled_run key v l cfg cfg' (conj Hc Hr) Hrun)). }
  split; [|split; [exact Hkeep|split]].
  - intros key. exact (run_keeps_keys l cfg cfg' key Hrun).
  - intros Hst. apply map_subseteq_spec. intros key v Hc.
    apply (Hkeep key v Hc). unfold running. rewrite Hst. apply not_elem_of_nil.
  - intros args from key w v Hk Hc cfg''. subst cfg''.
    rewrite (machine_hit args from cfg' key w v Hk Hc).
    destruct from; cbn; auto.
Qed.

End MemoizeMachineFacts.

Section ThrottleMachineFacts.
Import ThrottleMachine.
Context {Args E St : Type}.
Variable func : Args -> code Args E St.
Variable limit : Z.

Local Abbreviation config := (ThrottleMachine.config Args E St).
Local Abbreviation input := (ThrottleMachine.input Args).
Local Abbreviation caller := (option (completion unit E -> code Args E St)).
Local Abbreviation executedFunction := (ThrottleMachine.executedFunction func).
Local Abbreviation tick := (ThrottleMachine.tick func limit).
Local Abbreviation step := (ThrottleMachine.step func limit).
Local Abbreviation run := (ThrottleMachine.run func limit).
Local Abbreviation single := (ThrottleMachine.single (Args:=Args) (E:=E) (St:=St)).
Local Abbreviation steady := (ThrottleMachine.steady (Args:=Args) (E:=E) (St:=St) limit).

(** A call while the flag is set, from outside or from inside [func], is
    answered at once: no call of [func], no timer. *)
Lemma machine_throttled (args : Args) (from : caller) (cfg : config) :
  inThrottle cfg = true ->
  executedFunction args from cfg = resume from (Returns tt) cfg.
Proof.
  intros Hin. unfold ThrottleMachine.executedFunction. rewrite Hin. reflexivity.
Qed.

(** A call while the flag is not set calls [func] before anything else:
    the flag is still not set and no timer is made while [func] runs. *)
Lemma machine_leading (args : Args) (from : caller) (cfg : config) :
  inThrottle cfg = false ->
  executedFunction args from cfg =
    Config false (invoked cfg ++ [(Host.clock (host cfg), args)]) (world cfg)
           (host cfg) (from :: stack cfg) (Some (func args)).
Proof.
  intros Hin. unfold ThrottleMachine.executedFunction. rewrite Hin. reflexivity.
Qed.

Lemma machine_run_app (l1 l2 : list input) (cfg : config) :
  run (l1 ++ l2) cfg =
  match run l1 cfg with
  | Some cfg' => run l2 cfg'
  | None => None
  end.
Proof.
  revert cfg. induction l1 as [|i l1 IH]; intros cfg; cbn; [reflexivity|].
  destruct (step i cfg); [apply IH|reflexivity].
Qed.

(** A property that every step keeps holds after every run. *)
Lemma machine_run_invariant (P : config -> Prop) :
  (forall i cfg cfg', P cfg -> step i cfg = Some cfg' -> P cfg') ->
  forall l cfg cfg', P cfg -> run l cfg = Some cfg' -> P cfg'.
Proof.
  intros Hstep l. induction l as [|i l IH]; intros cfg cfg' Hc; cbn.
  - intros [= <-]. exact Hc.
  - destruct (step i cfg) as [cfg1|] eqn:Hi; [|discriminate].
    apply IH. exact (Hstep i cfg cfg1 Hc Hi).
Qed.

(** A call from outside, when no code is running. *)
Lemma machine_call (t : Z) (args : Args) (cfg cfg' : config) :
  step (Call t args) cfg = Some cfg' ->
  control cfg = None /\ Host.clock (host cfg) <= t /\
  cfg' = executedFunction args None
           (Config (inThrottle cfg) (invoked cfg) (world cfg)
                   (Host.Host t (Host.next_id (host cfg)) (Host.pending (host cfg)))
                   (stack cfg) (control cfg)).
Proof.
  cbn. destruct (control cfg); [discriminate|]. unfold Host.advance.
  destruct (Z.leb_spec (Host.clock (host cfg)) t); [|discriminate].
  intros [= <-]. auto.
Qed.

(** The host runs the one timer that is pending. *)
Lemma machine_fire (t : Z) (id : nat) (cfg cfg' : config) (id' : nat) (due : Z) :
  Host.pending (host cfg) = [Host.Timer id' due Throttle.Reset] ->
  step (Fire t id) cfg = Some cfg' ->
  control cfg = None /\ Host.clock (host cfg) <= t /\ due <= t /\
  cfg' = Config false (invoked cfg) (world cfg)
                (Host.Host t (Host.next_id (host cfg)) []) (stack cfg) (control cfg).
Proof.
  intros Hq. cbn. destruct (control cfg); [discriminate|].
  destruct (host cfg) as [c nid q]. cbn in Hq. subst q.
  destruct (Host.expire _ _ _) as [[cb h]|] eqn:He; [|discriminate].
  apply expire_only_inv in He. destruct He as (_ & -> & Hc & Hdue & ->).
  intros [= <-]. auto.
Qed.

Lemma machine_fire_none (t : Z) (id : nat) (cfg : config) :
  Host.pending (host cfg) = [] -> step (Fire t id) cfg = None.
Proof.
  intros Hq. cbn. destruct (control cfg); [reflexivity|].
  destruct (host cfg) as [c nid q]. cbn in Hq. subst q. reflexivity.
Qed.

Section Quiet.
Hypothesis func_quiet : forall args, quiet (func args).

Lemma single_step (i : input) (cfg cfg' : config) :
  single cfg -> step i cfg = Some cfg' -> single cfg'.
Proof.
  intros Hs Hstep. destruct i as [t args|t id|].
  - destruct (machine_call t args cfg cfg' Hstep) as (Hctl & _ & ->).
    destruct Hs as [(_ & Hst & Hq)|(c & Hc & _)]; [|congruence].
    destruct Hq as [[Hin [tm Hp]]|[Hin Hp]].
    + rewrite machine_throttled; [|exact Hin]. left. cbn.
      split; [reflexivity|]. split; [exact Hst|]. left. split; [exact Hin|].
      exists tm. exact Hp.
    + rewrite machine_leading; [|exact Hin]. right. exists (func args). cbn.
      rewrite Hst. auto 10.
  - destruct Hs as [(Hctl & Hst & Hq)|(c & Hc & _ & _ & _ & Hp)].
    + destruct Hq as [[Hin [[id' due []] Hp]]|[Hin Hp]].
      * destruct (machine_fire t id cfg cfg' id' due Hp Hstep) as (_ & _ & _ & ->).
        left. cbn. auto 10.
      * rewrite machine_fire_none in Hstep; [discriminate|exact Hp].
    + rewrite machine_fire_none in Hstep; [discriminate|exact Hp].
  - revert Hstep. cbn. unfold ThrottleMachine.tick.
    destruct Hs as [(Hctl & _)|(c & Hc & Hquiet & Hst & Hin & Hp)].
    + rewrite Hctl. discriminate.
    + rewrite Hc. destruct c as [[u|e]|args k|update k].
      * unfold finish. rewrite Hst. intros [= <-]. left. cbn. rewrite Hp. cbn.
        split; [reflexivity|]. split; [reflexivity|]. left. split; [reflexivity|].
        eexists. reflexivity.
      * unfold finish. rewrite Hst. intros [= <-]. left. cbn. auto 10.
      * destruct Hquiet.
      * intros [= <-]. right. exists (k (world cfg)). cbn. cbn in Hquiet. auto 10.
Qed.

Lemma single_create (w : St) : single (create w).
Proof. left. cbn. auto 10. Qed.

Lemma single_run (l : list input) (cfg cfg' : config) :
  single cfg -> run l cfg = Some cfg' -> single cfg'.
Proof. apply machine_run_invariant. exact single_step. Qed.
End Quiet.

Section Plain.
Hypothesis func_returns : forall args, returns (func args).

(** Code that returns without a call of the throttled function runs to
    its [return]. *)
Lemma returns_run (c : code Args E St) :
  returns c ->
  forall th inv w h st,
  exists n w' u,
    run (repeat Tick n) (Config th inv w h st (Some c))
    = Some (Config th inv w' h st (Some (Done (Returns u)))).
Proof.
  induction c as [[u|e]|args k IH|update k IH]; cbn [returns]; intros Hr th inv w h st.
  - exists 0%nat, w, u. reflexivity.
  - destruct Hr.
  - destruct Hr.
  - destruct (IH w (Hr w) th inv (update w) h st) as (n & w' & u & Hn).
    exists (S n), w', u. exact Hn.
Qed.

Lemma last_spaced_nil (ts : list Z) : last ts = None -> ts = [].
Proof.
  destruct ts as [|a l]; [reflexivity|]. intros Hl. exfalso. revert a Hl.
  induction l as [|b l IH]; intros a; [discriminate|apply IH].
Qed.

Lemma steady_step (i : input) (cfg cfg' : config) :
  steady cfg -> step i cfg = Some cfg' -> steady cfg'.
Proof.
  intros [Hsp Hs] Hstep. destruct i as [t args|t id|].
  - destruct (machine_call t args cfg cfg' Hstep) as (Hctl & Hclock & ->).
    destruct Hs as [(_ & Hst & Hin & id & t0 & Hl & Hp)
                   |[(_ & Hst & Hin & Hp & Hpast)|(c & Hc & _)]]; [| |congruence].
    + rewrite machine_throttled; [|exact Hin]. split; [exact Hsp|]. left. cbn.
      split; [reflexivity|]. split; [exact Hst|]. split; [exact Hin|].
      exists id, t0. split; [exact Hl|exact Hp].
    + rewrite machine_leading; [|exact Hin]. unfold ThrottleMachine.steady. cbn.
      rewrite map_app. cbn [map fst]. rewrite last_snoc. split.
      * destruct (last (map fst (invoked cfg))) as [t0|] eqn:Hl.
        -- eapply spaced_snoc; [exact Hsp|exact Hl|]. specialize (Hpast t0 eq_refl). lia.
        -- rewrite (last_spaced_nil _ Hl). exact I.
      * right. right. exists (func args). rewrite Hst. auto 10.
  - destruct Hs as [(Hctl & Hst & Hin & id' & t0 & Hl & Hp)
                   |[(_ & _ & _ & Hp & _)|(c & _ & _ & _ & _ & Hp & _)]].
    + destruct (machine_fire t id cfg cfg' id' _ Hp Hstep) as (_ & Hc & Hdue & ->).
      split; [exact Hsp|]. right. left. cbn.
      split; [exact Hctl|]. split; [exact Hst|]. split; [reflexivity|].
      split; [reflexivity|]. intros t1 Ht1. rewrite Hl in Ht1. injection Ht1 as <-. lia.
    + rewrite machine_fire_none in Hstep; [discriminate|exact Hp].
    + rewrite machine_fire_none in Hstep; [discriminate|exact Hp].
  - revert Hstep. cbn. unfold ThrottleMachine.tick.
    destruct Hs as [(Hctl & _)|[(Hctl & _)|(c & Hc & Hr & Hst & Hin & Hp & Hl)]].
    + rewrite Hctl. discriminate.
    + rewrite Hctl. discriminate.
    + rewrite Hc. destruct c as [[u|e]|args k|update k].
      * unfold finish. rewrite Hst. intros [= <-]. split; [exact Hsp|]. left. cbn.
        rewrite Hp. cbn. eauto 10.
      * destruct Hr.
      * destruct Hr.
      * intros [= <-]. split; [exact Hsp|]. right. right.
        exists (k (world cfg)). cbn. cbn in Hr. auto 10.
Qed.

Lemma steady_create (w : St) : steady (create w).
Proof.
  split; [exact I|]. right. left. cbn. repeat split. discriminate.
Qed.

Lemma steady_run (l : list input) (cfg cfg' : config) :
  steady cfg -> run l cfg = Some cfg' -> steady cfg'.
Proof. apply machine_run_invariant. exact steady_step. Qed.

(** C5, amended: for an underlying function that returns whenever it is
    called and does not call the throttled function itself.  After any
    run of a throttled function with limit [limit], the calls of [func] are
    at least [limit] apart; a call arriving while the flag is not set (the
    leading call of a window) calls [func], and when [func] has returned
    the window is open, with a timer of [limit]; a call arriving while the
    flag is set is dropped: no call of [func], no timer; and the window
    closes when the host runs the timer, no sooner than [limit] after the
    leading call. *)
Theorem throttle_plain_func_leading_call (w : St) (l : list input) (cfg : config) :
  run l (create w) = Some cfg ->
  spaced limit (map fst (invoked cfg)) /\
  (forall t args cfg1, step (Call t args) cfg = Some cfg1 ->
     if inThrottle cfg
     then invoked cfg1 = invoked cfg /\
          inThrottle cfg1 = true /\
          Host.pending (host cfg1) = Host.pending (host cfg) /\
          control cfg1 = None
     else invoked cfg1 = invoked cfg ++ [(t, args)] /\
          control cfg1 = Some (func args) /\
          exists n cfg2 id,
            run (repeat Tick n) cfg1 = Some cfg2 /\
            control cfg2 = None /\
            invoked cfg2 = invoked cfg1 /\
            inThrottle cfg2 = true /\
            Host.pending (host cfg2) =
              [Host.Timer id (t + Z.max 0 limit) Throttle.Reset]) /\
  (forall t id cfg1, step (Fire t id) cfg = Some cfg1 ->
     inThrottle cfg = true /\ inThrottle cfg1 = false /\
     invoked cfg1 = invoked cfg /\
     exists t0, last (map fst (invoked cfg)) = Some t0 /\ t0 + limit <= t).
Proof.
  intros Hrun.
  pose proof (steady_run l _ _ (steady_create w) Hrun) as [Hsp Hs].
  split; [exact Hsp|]. split.
  - intros t args cfg1 Hstep.
    destruct (machine_call t args cfg cfg1 Hstep) as (Hctl & Hclock & ->).
    destruct Hs as [(_ & Hst & Hin & id & t0 & Hl & Hp)
                   |[(_ & Hst & Hin & Hp & Hpast)|(c & Hc & _)]]; [| |congruence].
    + rewrite machine_throttled; [|exact Hin]. rewrite Hin. cbn. auto.
    + rewrite machine_leading; [|exact Hin]. rewrite Hin. cbn.
      split; [reflexivity|]. split; [reflexivity|].
      destruct (returns_run (func args) (func_returns args) false
                  (invoked cfg ++ [(t, args)]) (world cfg)
                  (Host.Host t (Host.next_id (host cfg)) (Host.pending (host cfg)))
                  (None :: stack cfg)) as (n & w' & u & Hn).
      exists (n + 1)%nat. eexists. exists (Host.next_id (host cfg)).
      rewrite repeat_app, machine_run_app, Hn. cbn.
      split; [reflexivity|]. cbn. rewrite Hp. auto.
  - intros t id cfg1 Hstep.
    destruct Hs as [(Hctl & Hst & Hin & id' & t0 & Hl & Hp)
                   |[(_ & _ & _ & Hp & _)|(c & _ & _ & _ & _ & Hp & _)]].
    + destruct (machine_fire t id cfg cfg1 id' _ Hp Hstep) as (_ & Hc & Hdue & ->).
      cbn. split; [exact Hin|]. split; [reflexivity|]. split; [reflexivity|].
      exists t0. split; [exact Hl|lia].
    + rewrite machine_fire_none in Hstep; [discriminate|exact Hp].
    + rewrite machine_fire_none in Hstep; [discriminate|exact Hp].
Qed.
End Plain.

(** With a [func] that is done in one step, a call from outside gives
    what [Throttle.executedFunction] gives. *)
Lemma machine_agrees_with_executedFunction
    (f : Args -> completion unit E) (t : Z) (args : Args) (cfg : config) :
  (forall a, func a = Done (f a)) ->
  control cfg = None -> stack cfg = [] ->
  match Throttle.step f limit (Host.Call t args)
          (Throttle.Vars (inThrottle cfg) (invoked cfg), host cfg) with
  | Some s' =>
      exists n,
        run (Call t args :: repeat Tick n) cfg =
        Some (Config (Throttle.inThrottle (fst s')) (Throttle.invoked (fst s'))
                     (world cfg) (snd s') [] None)
  | None => step (Call t args) cfg = None
  end.
Proof.
  intros Hf Hctl Hst. unfold Throttle.step, Host.step. cbn [ThrottleMachine.run ThrottleMachine.step snd fst].
  rewrite Hctl. destruct (Host.advance t (host cfg)) as [h|]; [|reflexivity].
  unfold Throttle.executedFunction, ThrottleMachine.executedFunction. cbn.
  destruct (inThrottle cfg) eqn:Hin.
  - exists 0%nat. cbn. rewrite Hst. reflexivity.
  - exists 1%nat. cbn. unfold ThrottleMachine.tick. cbn. rewrite Hf, Hst.
    destruct (f args); reflexivity.
Qed.
End ThrottleMachineFacts.

Section ManualChunksFacts.
Import ManualChunks.
Local Open Scope string_scope.

Lemma prefix_split (p s : string) :
  String.prefix p s = true <-> exists post, s = p ++ post.
Proof.
  revert s. induction p as [|c p IH]; intros [|d s]; simpl;
    try (split; [intros _; eexists; reflexivity | reflexivity]).
  - split; [discriminate | intros [post H]; discriminate].
  - destruct (Ascii.ascii_dec c d) as [->|Hne].
    + rewrite IH. split; intros [post H]; exists post.
      * rewrite H. reflexivity.
      * injection H as H. exact H.
    + split; [discriminate | intros [post H]; injection H as H1 H2; symmetry in H1; contradiction].
Qed.

(** [includes] is the search for a substring. *)
Lemma includes_spec (s needle : string) :
  includes s needle = true <-> exists pre post, s = pre ++ needle ++ post.
Proof.
  induction s as [|c s IH]; cbn [includes].
  - rewrite orb_false_r, prefix_split. split.
    + intros [post H]. exists "", post. exact H.
    + intros [pre [post H]]. destruct pre; simpl in H; [eauto | discriminate].
  - rewrite orb_true_iff, prefix_split, IH. split.
    + intros [[post H] | [pre [post H]]].
      * exists "", post. exact H.
      * exists (String c pre), post. simpl. rewrite H. reflexivity.
    + intros [pre [post H]]. destruct pre as [|d pre]; simpl in H.
      * left. eauto.
      * right. exists pre, post. injection H as H1 H2. exact H2.
Qed.

(** C8. [manualChunks] gives a chunk exactly to the paths that contain
    [node_modules]; the chunk is one of the seven vendor chunks, the one of
    the first rule with a substring that occurs in the path, and it is
    [vendor-misc] exactly when none of the listed substrings occurs. *)
Theorem manualChunks_vendor (id : string) :
  match manualChunks id with
  | Some chunk =>
      includes id "node_modules" = true /\ In chunk vendor_chunks /\
      chunk = first_rule id rules /\
      (chunk = "vendor-misc" <-> forallb (fun p => negb (includes id p)) listed = true)
  | None => includes id "node_modules" = false
  end.
Proof.
  unfold manualChunks, vendor_chunks, rules.
  destruct (includes id "node_modules"); [|reflexivity].
  cbn [forallb first_rule existsb listed].
  let substrings := eval cbv delta [listed] in listed in by_rules id substrings.
Qed.
End ManualChunksFacts.


(** C9 fails: for the dependency lists [[{x: undefined}]] and [[{y: 1}]]
    [deepEqual] answers [true] one way round and [false] the other.  The
    loop over [Object.keys(a)] reads [b.x], which is [undefined] like
    [a.x], and never asks whether [b] has the key. *)
Theorem deepEqual_not_symmetric :
  DeepEqual.deepEqual
    (DeepEqual.JArr 1 [DeepEqual.JObj 2 [("x"%string, DeepEqual.JUndefined)]])
    (DeepEqual.JArr 3 [DeepEqual.JObj 4 [("y"%string, DeepEqual.JNum 1)]]) = true /\
  DeepEqual.deepEqual
    (DeepEqual.JArr 3 [DeepEqual.JObj 4 [("y"%string, DeepEqual.JNum 1)]])
    (DeepEqual.JArr 1 [DeepEqual.JObj 2 [("x"%string, DeepEqual.JUndefined)]]) = false.
Proof. split; reflexivity. Qed.

(** ** The theorems at concrete inputs *)

Example lazy_three_failures :
  let s := LazyWithRetry.run
             (fun k => LazyWithRetry.Reply (LazyWithRetry.Rejected (Mod:=unit) k) 5)
             1000 (fun _ => 0) 5
             (LazyWithRetry.load
                (fun k => LazyWithRetry.Reply (LazyWithRetry.Rejected (Mod:=unit) k) 5) 2) in
  LazyWithRetry.attempts (fst s) = [0; 1005; 2010] /\
  LazyWithRetry.promise (fst s) = Some (LazyWithRetry.Rejected 2%nat).
Proof. split; reflexivity. Qed.

Lemma lazyWithRetry_attempts_witness :
  let s := LazyWithRetry.run
             (fun k => LazyWithRetry.Reply (LazyWithRetry.Rejected (Mod:=unit) k) 5)
             1000 (fun _ => 0) 5
             (LazyWithRetry.load
                (fun k => LazyWithRetry.Reply (LazyWithRetry.Rejected (Mod:=unit) k) 5) 2) in
  (length (LazyWithRetry.attempts (fst s)) <= Z.to_nat 2 + 1)%nat /\
  spaced 1000 (LazyWithRetry.attempts (fst s)) /\
  (LazyWithRetry.promise (fst s) <> None ->
   Z.of_nat (length (LazyWithRetry.attempts (fst s))) = 2 + 1) /\
  ((2 * Z.to_nat 2 + 1 <= 5)%nat ->
   (exists e, LazyWithRetry.promise (fst s) = Some (LazyWithRetry.Rejected e)) /\
   LazyWithRetry.tick
     (fun k => LazyWithRetry.Reply (LazyWithRetry.Rejected (Mod:=unit) k) 5)
     1000 (fun _ => 0) s = None).
Proof.
  apply (lazyWithRetry_attempts
           (fun k => LazyWithRetry.Reply (LazyWithRetry.Rejected (Mod:=unit) k) 5)
           2 1000 (fun _ => 0) 5).
  - lia.
  - intros k. exists k. reflexivity.
Defined.

Lemma memoize_settled_call_cached_witness :
  let run := MemoizeMachine.run Reentrant.halve None Reentrant.stringify in
  let start := MemoizeMachine.create (Args:=nat) (R:=nat) (E:=string) tt in
  let cfg :=
    default start
      (run [MemoizeMachine.Call 4%nat; MemoizeMachine.Tick; MemoizeMachine.Tick] start) in
  let cfg1 :=
    default start
      (MemoizeMachine.step Reentrant.halve None Reentrant.stringify MemoizeMachine.Tick cfg) in
  let cfg2 :=
    default start
      (run [MemoizeMachine.Tick; MemoizeMachine.Tick; MemoizeMachine.Call 0%nat] cfg1) in
  MemoizeMachine.trace cfg1 =
    MemoizeMachine.trace cfg ++
    [MemoizeMachine.Stored "0" 0%nat] ++ [MemoizeMachine.Answered "0" (Returns 0%nat)] /\
  MemoizeMachine.running cfg1 = ["2"%string; "4"%string] /\
  (exists later,
     MemoizeMachine.trace cfg2 = MemoizeMachine.trace cfg1 ++ later /\
     Forall (MemoizeMachine.agrees "0" 0%nat) later) /\
  forall (args : nat)
         (from : option (completion nat string -> MemoizeMachine.code nat nat string unit))
         (w : unit),
    Memoize.key_of None Reentrant.stringify args (MemoizeMachine.world cfg2)
      = (Returns "0"%string, w) ->
    MemoizeMachine.memoized Reentrant.halve None Reentrant.stringify args from cfg2 =
      MemoizeMachine.resume from (Returns 0%nat)
        (MemoizeMachine.Config (MemoizeMachine.cache cfg2) w
           (MemoizeMachine.trace cfg2 ++ [MemoizeMachine.Answered "0" (Returns 0%nat)])
           (MemoizeMachine.stack cfg2) (MemoizeMachine.control cfg2)
           (MemoizeMachine.answer cfg2)).
Proof.
  intros run start cfg cfg1 cfg2.
  split; [reflexivity|]. split; [reflexivity|].
  refine (memoize_settled_call_cached Reentrant.halve None Reentrant.stringify
            cfg cfg1 MemoizeMachine.Tick "0" 0%nat [MemoizeMachine.Stored "0" 0%nat]
            _ _ _
            [MemoizeMachine.Tick; MemoizeMachine.Tick; MemoizeMachine.Call 0%nat] cfg2 _).
  - reflexivity.
  - reflexivity.
  - apply (bool_decide_unpack _). vm_compute. exact I.
  - reflexivity.
Defined.

Lemma memoize_cache_keeps_settled_witness :
  exists cfg cfg' : MemoizeMachine.config nat nat string unit,
    MemoizeMachine.run Reentrant.halve None Reentrant.stringify
      [MemoizeMachine.Call 2%nat; MemoizeMachine.Tick; MemoizeMachine.Tick;
       MemoizeMachine.Tick]
      (MemoizeMachine.create tt) = Some cfg /\
    MemoizeMachine.run Reentrant.halve None Reentrant.stringify
      [MemoizeMachine.Call 4%nat; MemoizeMachine.Tick; MemoizeMachine.Tick;
       MemoizeMachine.Call 0%nat]
      cfg = Some cfg' /\
    (forall key, is_Some (MemoizeMachine.cache cfg !! key) ->
                 is_Some (MemoizeMachine.cache cfg' !! key)) /\
    (forall key v, MemoizeMachine.cache cfg !! key = Some v ->
                   key ∉ MemoizeMachine.running cfg ->
                   MemoizeMachine.cache cfg' !! key = Some v /\
                   key ∉ MemoizeMachine.running cfg') /\
    (MemoizeMachine.stack cfg = [] ->
     MemoizeMachine.cache cfg ⊆ MemoizeMachine.cache cfg') /\
    forall (args : nat)
           (from : option (completion nat string -> MemoizeMachine.code nat nat string unit))
           (key : string) (w : unit) (v : nat),
      Memoize.key_of None Reentrant.stringify args (MemoizeMachine.world cfg')
        = (Returns key, w) ->
      MemoizeMachine.cache cfg' !! key = Some v ->
      let cfg'' := MemoizeMachine.memoized Reentrant.halve None Reentrant.stringify
                     args from cfg' in
      MemoizeMachine.cache cfg'' = MemoizeMachine.cache cfg' /\
      MemoizeMachine.trace cfg'' =
        MemoizeMachine.trace cfg' ++ [MemoizeMachine.Answered key (Returns v)] /\
      match from with
      | Some k => MemoizeMachine.control cfg'' = Some (k (Returns v))
      | None => MemoizeMachine.control cfg'' = None /\
                MemoizeMachine.answer cfg'' = Some (Returns v)
      end.
Proof.
  eexists. eexists. split; [reflexivity|]. split; [reflexivity|].
  eapply (memoize_cache_keeps_settled Reentrant.halve None Reentrant.stringify
            [MemoizeMachine.Call 4%nat; MemoizeMachine.Tick; MemoizeMachine.Tick;
             MemoizeMachine.Call 0%nat]).
  reflexivity.
Defined.

(** After [m(2)] for [halve] under the default key, the cache holds ["0"]
    and ["2"]; [m(4)] then calls [fn] once and takes [m(2)] from the
    cache. *)
Example memoize_recursive_function :
  option_map (fun cfg : MemoizeMachine.config nat nat string unit =>
                (MemoizeMachine.answer cfg, MemoizeMachine.invocations_of (MemoizeMachine.trace cfg)))
    (MemoizeMachine.run Reentrant.halve None Reentrant.stringify
       [MemoizeMachine.Call 2%nat; MemoizeMachine.Tick; MemoizeMachine.Tick;
        MemoizeMachine.Tick;
        MemoizeMachine.Call 4%nat; MemoizeMachine.Tick; MemoizeMachine.Tick]
       (MemoizeMachine.create tt))
  = Some (Some (Returns 2%nat), [2%nat; 0%nat; 4%nat]).
Proof. reflexivity. Qed.

(** An [fn] that fails the first time it runs and makes no call of its
    own: the error is not cached, and the second call calls [fn] again. *)
Example memoize_machine_retry_after_throw :
  let fn := fun n : nat =>
              MemoizeMachine.Access (Args:=nat) (R:=nat) (E:=string) S
                (fun w : nat =>
                   match w with
                   | O => MemoizeMachine.Done (Throws "offline"%string)
                   | S _ => MemoizeMachine.Done (Returns (n * 2)%nat)
                   end) in
  option_map (fun cfg : MemoizeMachine.config nat nat string nat =>
                (MemoizeMachine.answer cfg, MemoizeMachine.trace cfg))
    (MemoizeMachine.run fn None Reentrant.stringify
       [MemoizeMachine.Call 3%nat; MemoizeMachine.Tick; MemoizeMachine.Tick;
        MemoizeMachine.Call 3%nat; MemoizeMachine.Tick; MemoizeMachine.Tick]
       (MemoizeMachine.create O))
  = Some (Some (Returns 6%nat),
          [MemoizeMachine.Invoked "3" 3%nat;
           MemoizeMachine.Answered "3" (Throws "offline"%string);
           MemoizeMachine.Invoked "3" 3%nat;
           MemoizeMachine.Stored "3" 6%nat;
           MemoizeMachine.Answered "3" (Returns 6%nat)]).
Proof. reflexivity. Qed.


Example memoize_retry_after_throw :
  let fn := fun (n : nat) (w : nat) =>
              (match w with
               | O => Throws (A:=nat) "offline"%string
               | S _ => Returns (n * 2)%nat
               end, S w) in
  let stringify := fun n : nat => Returns (E:=string) (pretty n) in
  let m' := snd (Memoize.memoized fn None stringify 3%nat (Memoize.create O)) in
  fst (Memoize.memoized fn None stringify 3%nat m') = Returns 6%nat /\
  Memoize.invocations (snd (Memoize.memoized fn None stringify 3%nat m')) = [3%nat; 3%nat].
Proof. split; reflexivity. Qed.

Lemma debounce_last_call_wins_witness :
  exists s : Debounce.state string,
    Debounce.run 100
      [Host.Call 0 "a"%string; Host.Call 50 "ab"%string; Host.Call 120 "abc"%string;
       Host.Fire 230 3%nat]
      Debounce.create = Some s /\
    ((Debounce.invoked (fst s) = [] /\
      forall t, 120 + Z.max 0 100 <= t ->
        exists id s',
          Host.pending (snd s) =
            [Host.Timer id (120 + Z.max 0 100) (Debounce.Later "abc"%string)] /\
          Debounce.step 100 (Host.Fire t id) s = Some s' /\
          Debounce.invoked (fst s') = [(t, "abc"%string)] /\
          Host.pending (snd s') = [])
     \/
     (exists t, Debounce.invoked (fst s) = [(t, "abc"%string)] /\ 120 + 100 <= t /\
                Host.pending (snd s) = [])).
Proof.
  eexists. split; [reflexivity|].
  apply (debounce_last_call_wins 100
           [Host.Call 0 "a"%string; Host.Call 50 "ab"%string;
            Host.Call 120 "abc"%string; Host.Fire 230 3%nat]).
  - reflexivity.
  - cbn. lia.
  - reflexivity.
Defined.

Example debounce_burst_of_three :
  option_map (fun s : Debounce.state string => Debounce.invoked (fst s))
    (Debounce.run 100
       [Host.Call 0 "a"%string; Host.Call 50 "ab"%string; Host.Call 120 "abc"%string;
        Host.Fire 230 3%nat]
       Debounce.create)
  = Some [(230, "abc"%string)].
Proof. reflexivity. Qed.

(** A timer cannot run before it is due: this trace is not a run. *)
Example debounce_early_fire_refused :
  Debounce.run 100 [Host.Call 0 "a"%string; Host.Fire 99 1%nat] Debounce.create = None.
Proof. reflexivity. Qed.

Lemma throttle_plain_func_leading_call_witness :
  let func := fun _ : nat => ThrottleMachine.Done (Args:=nat) (St:=unit) (Returns (E:=string) tt) in
  let calls :=
    [ThrottleMachine.Call 0 1%nat; ThrottleMachine.Tick;
     ThrottleMachine.Call 30 2%nat; ThrottleMachine.Call 60 3%nat;
     ThrottleMachine.Fire 100 1%nat;
     ThrottleMachine.Call 110 4%nat; ThrottleMachine.Tick] in
  let cfg :=
    default (ThrottleMachine.create tt)
      (ThrottleMachine.run func 100 calls (ThrottleMachine.create tt)) in
  ThrottleMachine.invoked cfg = [(0, 1%nat); (110, 4%nat)] /\
  (spaced 100 (map fst (ThrottleMachine.invoked cfg)) /\
   (forall t args cfg1,
      ThrottleMachine.step func 100 (ThrottleMachine.Call t args) cfg = Some cfg1 ->
      if ThrottleMachine.inThrottle cfg
      then ThrottleMachine.invoked cfg1 = ThrottleMachine.invoked cfg /\
           ThrottleMachine.inThrottle cfg1 = true /\
           Host.pending (ThrottleMachine.host cfg1) = Host.pending (ThrottleMachine.host cfg) /\
           ThrottleMachine.control cfg1 = None
      else ThrottleMachine.invoked cfg1 = ThrottleMachine.invoked cfg ++ [(t, args)] /\
           ThrottleMachine.control cfg1 = Some (func args) /\
           exists n cfg2 id,
             ThrottleMachine.run func 100 (repeat ThrottleMachine.Tick n) cfg1 = Some cfg2 /\
             ThrottleMachine.control cfg2 = None /\
             ThrottleMachine.invoked cfg2 = ThrottleMachine.invoked cfg1 /\
             ThrottleMachine.inThrottle cfg2 = true /\
             Host.pending (ThrottleMachine.host cfg2) =
               [Host.Timer id (t + Z.max 0 100) Throttle.Reset]) /\
   (forall t id cfg1,
      ThrottleMachine.step func 100 (ThrottleMachine.Fire t id) cfg = Some cfg1 ->
      ThrottleMachine.inThrottle cfg = true /\ ThrottleMachine.inThrottle cfg1 = false /\
      ThrottleMachine.invoked cfg1 = ThrottleMachine.invoked cfg /\
      exists t0, last (map fst (ThrottleMachine.invoked cfg)) = Some t0 /\ t0 + 100 <= t)).
Proof.
  intros func calls cfg. split; [vm_compute; reflexivity|].
  apply (throttle_plain_func_leading_call func 100 (fun _ => I) tt calls cfg).
  vm_compute. reflexivity.
Defined.


Example throttle_first_call_per_window :
  option_map (fun s : Throttle.state nat => Throttle.invoked (fst s))
    (Throttle.run (fun _ : nat => Returns (E:=unit) tt) 100
       [Host.Call 0 1%nat; Host.Call 30 2%nat; Host.Call 60 3%nat;
        Host.Fire 100 1%nat; Host.Call 110 4%nat]
       Throttle.create)
  = Some [(0, 1%nat); (110, 4%nat)].
Proof. reflexivity. Qed.

(** C3 as stated fails when the first of the two calls is made by [fn]
    while a call on the same key is running.  With [halve] memoized under
    [parity], [m(2)] calls [fn], which calls [m(0)]: the same key ["0"],
    not yet stored, so [fn] is called again; [m(0)] returns 0 and stores
    it; then [m(2)] stores 1 over it.  A later [m(0)] returns 1, not the 0
    the first [m(0)] returned. *)
Lemma memoize_nested_call_overwrites :
  exists cfg : MemoizeMachine.config nat nat string unit,
    MemoizeMachine.run Reentrant.halve Reentrant.parity Reentrant.stringify
      [MemoizeMachine.Call 2%nat; MemoizeMachine.Tick; MemoizeMachine.Tick;
       MemoizeMachine.Tick; MemoizeMachine.Call 0%nat]
      (MemoizeMachine.create tt) = Some cfg /\
    MemoizeMachine.trace cfg =
      [MemoizeMachine.Invoked "0" 2%nat; MemoizeMachine.Invoked "0" 0%nat;
       MemoizeMachine.Stored "0" 0%nat; MemoizeMachine.Answered "0" (Returns 0%nat);
       MemoizeMachine.Stored "0" 1%nat; MemoizeMachine.Answered "0" (Returns 1%nat);
       MemoizeMachine.Answered "0" (Returns 1%nat)] /\
    MemoizeMachine.answer cfg = Some (Returns 1%nat).
Proof. eexists. split; [reflexivity|]. split; reflexivity. Qed.

(** C6 as stated fails: tracing [m(4)] for [halve] memoized under
    [parity], the key ["0"] is stored as 0, then as 1, then as 2, and a hit
    on it returns 2. *)
Lemma memoize_stored_value_replaced :
  exists cfg1 cfg2 cfg3 : MemoizeMachine.config nat nat string unit,
    MemoizeMachine.run Reentrant.halve Reentrant.parity Reentrant.stringify
      [MemoizeMachine.Call 4%nat; MemoizeMachine.Tick; MemoizeMachine.Tick;
       MemoizeMachine.Tick]
      (MemoizeMachine.create tt) = Some cfg1 /\
    MemoizeMachine.cache cfg1 !! "0"%string = Some 0%nat /\
    MemoizeMachine.run Reentrant.halve Reentrant.parity Reentrant.stringify
      [MemoizeMachine.Tick; MemoizeMachine.Tick] cfg1 = Some cfg2 /\
    MemoizeMachine.cache cfg2 !! "0"%string = Some 2%nat /\
    MemoizeMachine.trace cfg2 =
      [MemoizeMachine.Invoked "0" 4%nat; MemoizeMachine.Invoked "0" 2%nat;
       MemoizeMachine.Invoked "0" 0%nat;
       MemoizeMachine.Stored "0" 0%nat; MemoizeMachine.Answered "0" (Returns 0%nat);
       MemoizeMachine.Stored "0" 1%nat; MemoizeMachine.Answered "0" (Returns 1%nat);
       MemoizeMachine.Stored "0" 2%nat; MemoizeMachine.Answered "0" (Returns 2%nat)] /\
    MemoizeMachine.run Reentrant.halve Reentrant.parity Reentrant.stringify
      [MemoizeMachine.Call 0%nat] cfg2 = Some cfg3 /\
    MemoizeMachine.answer cfg3 = Some (Returns 2%nat).
Proof.
  eexists. eexists. eexists.
  split; [reflexivity|]. split; [reflexivity|]. split; [reflexivity|].
  split; [reflexivity|]. split; [reflexivity|]. split; reflexivity.
Qed.


(** C5 as stated fails in two ways, with calls 1 ms apart and a limit of
    100.  A [func] that throws is left before the flag is set, so the next
    call calls it again.  A [func] that calls the throttled function finds
    the flag not set, so [func] is called twice at the same instant. *)
Lemma throttle_unspaced_invocations :
  (exists cfg : ThrottleMachine.config nat string unit,
     ThrottleMachine.run
       (fun _ : nat => ThrottleMachine.Done (Throws "boom"%string)) 100
       [ThrottleMachine.Call 0 1%nat; ThrottleMachine.Tick;
        ThrottleMachine.Call 1 2%nat; ThrottleMachine.Tick]
       (ThrottleMachine.create tt) = Some cfg /\
     ThrottleMachine.control cfg = None /\
     ThrottleMachine.invoked cfg = [(0, 1%nat); (1, 2%nat)] /\
     ~ spaced 100 (map fst (ThrottleMachine.invoked cfg))) /\
  (exists cfg : ThrottleMachine.config nat string unit,
     ThrottleMachine.run Reentrant.twice 100
       [ThrottleMachine.Call 0 0%nat; ThrottleMachine.Tick;
        ThrottleMachine.Tick; ThrottleMachine.Tick]
       (ThrottleMachine.create tt) = Some cfg /\
     ThrottleMachine.control cfg = None /\
     ThrottleMachine.invoked cfg = [(0, 0%nat); (0, 1%nat)] /\
     ~ spaced 100 (map fst (ThrottleMachine.invoked cfg))).
Proof.
  split; eexists; (split; [reflexivity|]); (split; [reflexivity|]);
    (split; [reflexivity|]); cbn; lia.
Qed.


Example deepEqual_bare_objects :
  DeepEqual.deepEqual
    (DeepEqual.JObj 1 [("x"%string, DeepEqual.JUndefined)])
    (DeepEqual.JObj 2 [("y"%string, DeepEqual.JNum 1)]) = true /\
  DeepEqual.deepEqual
    (DeepEqual.JObj 2 [("y"%string, DeepEqual.JNum 1)])
    (DeepEqual.JObj 1 [("x"%string, DeepEqual.JUndefined)]) = false.
Proof. split; reflexivity. Qed.

Example deepEqual_equal_lists :
  DeepEqual.deepEqual
    (DeepEqual.JArr 1 [DeepEqual.JNum 1; DeepEqual.JStr "a"; DeepEqual.JArr 2 []])
    (DeepEqual.JArr 3 [DeepEqual.JNum 1; DeepEqual.JStr "a"; DeepEqual.JArr 4 []]) = true.
Proof. reflexivity. Qed.

Example manualChunks_paths :
  ManualChunks.manualChunks "/app/node_modules/i18next/index.js" = Some "vendor-i18n"%string /\
  ManualChunks.manualChunks "/app/node_modules/react-i18next/index.js" = Some "vendor-react"%string /\
  ManualChunks.manualChunks "/app/node_modules/lodash/lodash.js" = Some "vendor-misc"%string /\
  ManualChunks.manualChunks "/app/src/main.tsx" = None.
Proof. repeat split; reflexivity. Qed.

(** * Further properties *)

Section DeepEqualFacts.
Import DeepEqual DeepEqualShapes.

(** Induction on values, with the items of arrays and the property values
    of objects as smaller values. *)
Lemma value_nested_ind (P : value -> Prop) :
  P JUndefined -> P JNull -> (forall b, P (JBool b)) -> (forall n, P (JNum n)) ->
  P JNaN -> (forall s, P (JStr s)) -> (forall r, P (JFun r)) ->
  (forall r xs, Forall P xs -> P (JArr r xs)) ->
  (forall r ps, Forall (fun kv => P (snd kv)) ps -> P (JObj r ps)) ->
  forall a, P a.
Proof.
  intros Hu Hn Hb Hz Hnan Hs Hf Harr Hobj.
  fix IH 1.
  intros [| |b|n| |s|r|r xs|r ps];
    [exact Hu|exact Hn|apply Hb|apply Hz|exact Hnan|apply Hs|apply Hf| |].
  - apply Harr. induction xs as [|x xs IHxs]; constructor; [apply IH|exact IHxs].
  - apply Hobj. induction ps as [|[k x] ps IHps]; constructor; [apply IH|exact IHps].
Qed.

Lemma strict_eq_sym (a b : value) : strict_eq a b = strict_eq b a.
Proof.
  destruct a as [| |x|x| |x|x|x ?|x ?], b as [| |y|y| |y|y|y ?|y ?]; cbn;
    try reflexivity;
    first [destruct x, y; reflexivity | apply Z.eqb_sym | apply String.eqb_sym
          | apply Nat.eqb_sym].
Qed.

Lemma strict_eq_refl (a : value) : strict_eq a a = negb (is_nan a).
Proof.
  destruct a; cbn; try reflexivity;
    first [apply Bool.eqb_reflx | apply Z.eqb_refl | apply String.eqb_refl
          | apply Nat.eqb_refl].
Qed.

Lemma deepEqual_arr_arr (r r' : nat) (xs ys : list value) :
  deepEqual (JArr r xs) (JArr r' ys) =
  Nat.eqb r r' || (Nat.eqb (length xs) (length ys) && items_loop ys 0 xs).
Proof.
  cbn. destruct (Nat.eqb r r'); [reflexivity|].
  destruct (Nat.eqb (length xs) (length ys)); [|reflexivity]. cbn.
  generalize O. induction xs as [|x xs IH]; intros i; cbn; [reflexivity|].
  destruct (deepEqual x (nth i ys JUndefined)); cbn; [apply IH|reflexivity].
Qed.

Lemma deepEqual_obj (r : nat) (ps : list (string * value)) (b : value) :
  deepEqual (JObj r ps) b =
  strict_eq (JObj r ps) b ||
  (is_object b && Nat.eqb (length ps) (length (keys b)) && props_loop b ps).
Proof.
  cbn [deepEqual].
  destruct (strict_eq (JObj r ps) b); [reflexivity|].
  replace (nullish (JObj r ps) || nullish b) with (nullish b) by reflexivity.
  destruct b; cbn [nullish is_object orb andb]; try reflexivity;
    (destruct (Nat.eqb (length ps) _); [|reflexivity]); cbn [negb andb];
    (induction ps as [|[k x] ps IH]; cbn; [reflexivity|];
     destruct (deepEqual x _); cbn; [apply IH|reflexivity]).
Qed.

Lemma deepEqual_unless_objects (a b : value) :
  is_object a && is_object b = false -> deepEqual a b = strict_eq a b.
Proof.
  destruct a, b; try discriminate; intros _; cbn;
    repeat match goal with
    | |- context [if ?c then _ else _] => destruct c
    end; reflexivity.
Qed.

(** X1. Unless both values are arrays or objects, [deepEqual(a, b)] is
    [a === b]: [null] and [undefined] are not deep-equal to each other, a
    function is deep-equal to itself only, and a primitive is never
    deep-equal to an array or an object. *)
Theorem deepEqual_of_primitive (a b : value) :
  is_object a && is_object b = false -> deepEqual a b = strict_eq a b.
Proof.
  destruct a, b; try discriminate; intros _; cbn;
    repeat match goal with
    | |- context [if ?c then _ else _] => destruct c
    end; reflexivity.
Qed.

(** X2. A value is deep-equal to itself, whatever it holds, unless it is
    [NaN]: [deepEqual(NaN, NaN)] is [false]. *)
Theorem deepEqual_refl (a : value) : deepEqual a a = negb (is_nan a).
Proof.
  destruct a as [| |x|x| |x|x|r xs|r ps];
    try (rewrite deepEqual_unless_objects by reflexivity; apply strict_eq_refl).
  - rewrite deepEqual_arr_arr, Nat.eqb_refl. reflexivity.
  - rewrite deepEqual_obj. cbn [strict_eq]. rewrite Nat.eqb_refl. reflexivity.
Qed.

Lemma items_loop_all2 (xs pre suf : list value) :
  length xs = length suf ->
  items_loop (pre ++ suf) (length pre) xs = all2 deepEqual xs suf.
Proof.
  revert pre suf. induction xs as [|x xs IH]; intros pre [|y suf] Hlen;
    try discriminate; cbn; [reflexivity|].
  rewrite nth_middle.
  destruct (deepEqual x y); cbn; [|reflexivity].
  replace (pre ++ y :: suf) with ((pre ++ [y]) ++ suf) by (rewrite <- app_assoc; reflexivity).
  replace (S (length pre)) with (length (pre ++ [y])) by (rewrite length_app; cbn; lia).
  apply IH. cbn in Hlen. lia.
Qed.

Lemma all2_length (f : value -> value -> bool) (xs ys : list value) :
  all2 f xs ys = true -> length xs = length ys.
Proof.
  revert ys. induction xs as [|x xs IH]; intros [|y ys]; cbn; try discriminate;
    [reflexivity|].
  intros H. apply andb_prop in H. destruct H as [_ H]. f_equal. apply IH, H.
Qed.

(** Two arrays are deep-equal when they are the same array, or have the
    same length and deep-equal items. *)
Lemma deepEqual_arrays (r r' : nat) (xs ys : list value) :
  deepEqual (JArr r xs) (JArr r' ys) = Nat.eqb r r' || all2 deepEqual xs ys.
Proof.
  rewrite deepEqual_arr_arr. destruct (Nat.eqb r r'); [reflexivity|]. cbn.
  destruct (Nat.eqb_spec (length xs) (length ys)) as [Hlen|Hlen]; cbn.
  - apply (items_loop_all2 xs [] ys Hlen).
  - destruct (all2 deepEqual xs ys) eqn:H; [|reflexivity].
    apply all2_length in H. contradiction.
Qed.

(** X3. On values with no object in them (primitives, functions, and
    arrays of such values, nested at will) [deepEqual] is symmetric. *)
Theorem deepEqual_sym_object_free (a b : value) :
  object_free a = true -> object_free b = true ->
  deepEqual a b = deepEqual b a.
Proof.
  revert b. induction a as [| |x|x| |x|x|r xs IH|r ps _] using value_nested_ind;
    intros b Ha Hb;
    try (rewrite !deepEqual_unless_objects by (rewrite ?andb_false_r; reflexivity);
         apply strict_eq_sym);
    [|discriminate].
  destruct b as [| |y|y| |y|y|r' ys|r' qs];
    try (rewrite !deepEqual_unless_objects by reflexivity; apply strict_eq_sym);
    [|discriminate].
  rewrite !deepEqual_arrays, (Nat.eqb_sym r r'). f_equal.
  cbn in Ha, Hb. clear r r'. revert ys Hb.
  induction xs as [|x xs IHxs]; intros [|y ys] Hb; cbn; try reflexivity.
  apply andb_prop in Ha, Hb. destruct Ha as [Hx Hxs], Hb as [Hy Hys].
  inversion IH as [|? ? IHx IHrest]; subst.
  rewrite (IHx y Hx Hy). f_equal. apply IHxs; assumption.
Qed.

Lemma get_own_nodup (k : string) (y : value) (qs : list (string * value)) :
  NoDup (map fst qs) -> In (k, y) qs -> get_own k qs = y.
Proof.
  induction qs as [|[k' y'] qs IH]; cbn; [contradiction|].
  intros Hnd [Heq|Hin].
  - injection Heq as -> ->. rewrite String.eqb_refl. reflexivity.
  - apply NoDup_cons in Hnd. destruct Hnd as [Hk Hnd].
    destruct (String.eqb_spec k k') as [->|_]; [|apply IH; assumption].
    exfalso. apply Hk. apply list_elem_of_In, in_map_iff. exists (k', y). auto.
Qed.

Lemma props_loop_true (b : value) (ps : list (string * value)) :
  (forall k x, In (k, x) ps -> deepEqual x (get_prop b k) = true) ->
  props_loop b ps = true.
Proof.
  induction ps as [|[k x] ps IH]; intros H; cbn; [reflexivity|].
  rewrite (H k x) by (left; reflexivity). cbn. apply IH.
  intros k' x' Hin. apply H. right. exact Hin.
Qed.

(** X4. Copies are deep-equal: two values of the same shape, free of
    [NaN] and with each key of an object listed once, are deep-equal
    whatever the references of their arrays and objects. *)
Theorem deepEqual_copies (a b : value) :
  clean a = true -> shape a = shape b -> deepEqual a b = true.
Proof.
  revert b. induction a as [| |x|x| |x|x|r xs IH|r ps IH] using value_nested_ind;
    intros b Ha Hs;
    try (destruct b; try discriminate Hs; cbn in Hs; injection Hs as <-;
         rewrite deepEqual_unless_objects, strict_eq_refl; reflexivity);
    try (destruct b; try discriminate Hs;
         rewrite deepEqual_unless_objects, strict_eq_refl; reflexivity);
    try discriminate Ha.
  - destruct b as [| |y|y| |y|y|r' ys|r' qs]; try discriminate Hs.
    cbn in Hs. injection Hs as Hs. rewrite deepEqual_arrays.
    apply orb_true_intro. right. cbn in Ha. clear r r'. revert ys Hs.
    induction xs as [|x xs IHxs]; intros [|y ys] Hs; try discriminate Hs;
      cbn; [reflexivity|].
    cbn in Hs. injection Hs as Hx Hs. apply andb_prop in Ha. destruct Ha as [Hcx Hcxs].
    inversion IH as [|? ? IHx IHrest]; subst.
    rewrite (IHx y Hcx Hx). cbn. apply IHxs; assumption.
  - destruct b as [| |y|y| |y|y|r' ys|r' qs]; try discriminate Hs.
    cbn in Hs. injection Hs as Hs. rewrite deepEqual_obj.
    apply orb_true_intro. right. cbn [is_object keys andb].
    cbn in Ha. apply andb_prop in Ha. destruct Ha as [Hnd Hc].
    apply bool_decide_eq_true in Hnd.
    assert (Hkeys : map fst ps = map fst qs).
    { apply (f_equal (map fst)) in Hs. rewrite !map_map in Hs. exact Hs. }
    assert (Hlen : length ps = length qs).
    { apply (f_equal (@length _)) in Hkeys. rewrite !length_map in Hkeys. exact Hkeys. }
    rewrite length_map, Hlen, Nat.eqb_refl. cbn.
    apply props_loop_true. intros k x Hin. cbn [get_prop].
    assert (Hy : exists y, In (k, y) qs /\ shape x = shape y).
    { clear - Hs Hin. revert qs Hs.
      induction ps as [|[k1 x1] ps IHps]; intros [|[k2 y2] qs] Hs;
        try discriminate Hs; [contradiction|].
      cbn in Hs. injection Hs as Hk Hx Hs. cbn in Hk. subst k2.
      destruct Hin as [Heq|Hin].
      - injection Heq as -> ->. exists y2. split; [left; reflexivity|exact Hx].
      - destruct (IHps Hin qs Hs) as (y & Hy & Hsy). exists y. split; [right|]; assumption. }
    destruct Hy as (y & Hyin & Hsy).
    rewrite (get_own_nodup k y qs); [|rewrite <- Hkeys; exact Hnd|exact Hyin].
    rewrite Forall_forall in IH.
    apply (IH (k, x)); [apply list_elem_of_In; exact Hin| |exact Hsy].
    rewrite forallb_forall in Hc. apply (Hc (k, x) Hin).
Qed.
End DeepEqualFacts.

Section HooksFacts.
Import DeepEqual Hooks.

Lemma deepCallback_updates {Cb : Type} (rs : list (Cb * value))
  (c : DeepCallback.cells Cb) :
  Forall (eq (DeepCallback.kept c)) (fst (DeepCallback.updates rs c)) /\
  DeepCallback.kept (snd (DeepCallback.updates rs c)) = DeepCallback.kept c.
Proof.
  revert c. induction rs as [|[cb deps] rs IH]; intros c.
  - split; [constructor|reflexivity].
  - cbn [DeepCallback.updates DeepCallback.update].
    match goal with
    | |- context [DeepCallback.updates rs ?c1] =>
        specialize (IH c1); destruct (DeepCallback.updates rs c1) as [outs c2]
    end.
    cbn in *. destruct IH as [IH1 IH2].
    split; [constructor; [reflexivity|exact IH1]|exact IH2].
Qed.

(** X5. The function returned by [useDeepCallback] is, on every render,
    the callback of the first render, however the dependency lists change:
    [useCallback] is given the dependency list [[]]. *)
Theorem useDeepCallback_returns_first {Cb : Type} (first : Cb * value)
  (rest : list (Cb * value)) :
  Forall (eq (fst first)) (fst (DeepCallback.useDeepCallback first rest)).
Proof.
  unfold DeepCallback.useDeepCallback, DeepCallback.mount.
  destruct (negb (deepEqual (snd first) (snd first))); cbn;
    match goal with
    | |- context [DeepCallback.updates rest ?c] =>
        pose proof (deepCallback_updates rest c) as [H _];
        destruct (DeepCallback.updates rest c) as [outs c']
    end; cbn in *; constructor; auto.
Qed.

Lemma deepEffect_updates (ds : list value) (c : DeepEffect.cells) :
  DeepEffect.seen c = DeepEffect.signalRef c ->
  fst (DeepEffect.updates ds c) = DeepEffect.deep_changes (DeepEffect.ref c) ds.
Proof.
  revert c. induction ds as [|deps ds IH]; intros c Hseen; [reflexivity|].
  cbn [DeepEffect.updates DeepEffect.update DeepEffect.deep_changes].
  match goal with
  | |- context [DeepEffect.updates ds ?c1] =>
      specialize (IH c1 eq_refl); destruct (DeepEffect.updates ds c1) as [rans c2]
  end.
  cbn [fst snd] in *. rewrite Hseen.
  destruct (deepEqual (DeepEffect.ref c) deps); cbn [negb] in *.
  - rewrite Nat.eqb_refl. cbn. f_equal. exact IH.
  - replace (Nat.eqb (S (DeepEffect.signalRef c)) (DeepEffect.signalRef c)) with false
      by (symmetry; apply Nat.eqb_neq; lia).
    cbn. f_equal. exact IH.
Qed.

(** X6. The effect of [useDeepEffect] runs after the first render, and
    after a later render exactly when its dependency list is not
    deep-equal to the list of the render the effect last ran for. *)
Theorem useDeepEffect_runs_on_deep_change (first : value) (rest : list value) :
  DeepEffect.useDeepEffect first rest = true :: DeepEffect.deep_changes first rest.
Proof.
  unfold DeepEffect.useDeepEffect, DeepEffect.mount.
  f_equal. rewrite deepEffect_updates.
  - cbn. destruct (deepEqual first first); reflexivity.
  - reflexivity.
Qed.

Lemma previous_updates {V : Type} `{EqDecision V} (vs : list V)
  (c : Previous.cells V) (v : V) :
  Previous.ref c = Some v -> Previous.seen c = v ->
  Previous.updates vs c = map Some (removelast (v :: vs)).
Proof.
  revert c v. induction vs as [|w vs IH]; intros c v Hr Hs; [reflexivity|].
  cbn [Previous.updates Previous.update]. rewrite Hr, Hs.
  change (removelast (v :: w :: vs)) with (v :: removelast (w :: vs)).
  cbn [map]. f_equal.
  case_bool_decide as Hw.
  - subst w. apply IH; reflexivity.
  - apply IH; reflexivity.
Qed.

(** X7. [usePrevious] returns [undefined] on the first render and, on
    every later render, the value of the render before, also when the
    effect is skipped because the value did not change. *)
Theorem usePrevious_returns_previous {V : Type} `{EqDecision V}
  (first : V) (rest : list V) :
  Previous.usePrevious first rest = None :: map Some (removelast (first :: rest)).
Proof.
  unfold Previous.usePrevious, Previous.mount. f_equal.
  apply previous_updates; reflexivity.
Qed.
End HooksFacts.

Section MemoizePure.
Import Memoize.
Context {Args R E St : Type}.
Variable fn : Args -> St -> completion R E * St.
Variable getKey : option (Args -> St -> completion string E * St).
Variable stringify : Args -> completion string E.
Variable f : Args -> R.
Variable k : Args -> string.

Local Abbreviation memo := (Memoize.memo Args R St).
Local Abbreviation key_of := (Memoize.key_of getKey stringify).
Local Abbreviation memoized := (Memoize.memoized fn getKey stringify).
Local Abbreviation calls := (Memoize.calls fn getKey stringify).

(** [fn] computes [f] and the key of a call is [k] of its arguments:
    neither throws nor touches the state. *)
Hypothesis fn_pure : forall a w, fn a w = (Returns (f a), w).
Hypothesis key_pure : forall a w, key_of a w = (Returns (k a), w).

Lemma memoized_pure (args : Args) (m : memo) :
  memoized args m =
  match cache m !! k args with
  | Some v => (Returns v, m)
  | None => (Returns (f args),
             Memo (<[k args := f args]> (cache m)) (world m) (invocations m ++ [args]))
  end.
Proof.
  unfold Memoize.memoized. rewrite key_pure.
  destruct (cache m !! k args); [destruct m; reflexivity|].
  rewrite fn_pure. reflexivity.
Qed.

Lemma calls_pure_count (history : list Args) (m : memo) :
  dom (cache (calls history m)) = dom (cache m) ∪ list_to_set (map k history) /\
  (length (invocations (calls history m)) + size (cache m) =
   length (invocations m) + size (cache (calls history m)))%nat.
Proof.
  revert m. induction history as [|args history IH]; intros m; cbn [Memoize.calls].
  - split; [cbn; rewrite union_empty_r_L; reflexivity|lia].
  - rewrite memoized_pure. destruct (cache m !! k args) as [v|] eqn:Hc; cbn [snd].
    + destruct (IH m) as [IH1 IH2]. split; [|exact IH2].
      rewrite IH1. cbn [map list_to_set].
      assert (Hin : k args ∈ dom (cache m)) by (apply elem_of_dom; eauto).
      rewrite (assoc_L (∪)). f_equal. symmetry.
      rewrite (comm_L (∪)). apply subseteq_union_1_L.
      apply singleton_subseteq_l, Hin.
    + match goal with |- context [calls history ?m1] => destruct (IH m1) as [IH1 IH2] end.
      cbn [cache invocations] in IH1, IH2. split.
      * rewrite IH1, dom_insert_L. cbn [map list_to_set].
        rewrite (comm_L (∪) {[k args]} (dom (cache m))), (assoc_L (∪)). reflexivity.
      * rewrite length_app, map_size_insert_None in IH2 by exact Hc. cbn in IH2. lia.
Qed.

(** X8. A memoized function whose [fn] and key are pure calls [fn] once
    for each distinct key among the calls made so far, and caches exactly
    those keys. *)
Theorem memoize_one_call_per_key (history : list Args) (w : St) :
  let m := calls history (Memoize.create w) in
  dom (cache m) = list_to_set (map k history) /\
  length (invocations m) = size (list_to_set (map k history) : gset string).
Proof.
  intros m. destruct (calls_pure_count history (Memoize.create w)) as [H1 H2].
  fold m in H1, H2. cbn in H1, H2. rewrite dom_empty_L, union_empty_l_L in H1.
  rewrite map_size_empty in H2. split; [exact H1|].
  rewrite <- H1, size_dom. lia.
Qed.

Hypothesis key_separates : forall a b, k a = k b -> f a = f b.

Lemma calls_pure_sound (history : list Args) (m : memo) :
  (forall key v, cache m !! key = Some v -> exists a, k a = key /\ f a = v) ->
  forall key v, cache (calls history m) !! key = Some v ->
                exists a, k a = key /\ f a = v.
Proof.
  revert m. induction history as [|args history IH]; intros m Hm; cbn [Memoize.calls].
  - exact Hm.
  - apply IH. rewrite memoized_pure.
    destruct (cache m !! k args) as [u|] eqn:Hc; cbn [snd]; [exact Hm|].
    intros key v. cbn [cache]. rewrite lookup_insert.
    case_decide as Hk; [|apply Hm].
    intros [= <-]. exists args. split; [exact Hk|reflexivity].
Qed.

(** X9. When the key tells apart all arguments that [f] tells apart, the
    memoized function returns what [f] returns, after any calls. *)
Theorem memoize_transparent (history : list Args) (w : St) (args : Args) :
  fst (memoized args (calls history (Memoize.create w))) = Returns (f args).
Proof.
  rewrite memoized_pure.
  destruct (cache _ !! k args) as [v|] eqn:Hc; [|reflexivity].
  apply calls_pure_sound in Hc.
  - destruct Hc as (a & Hk & <-). cbn. f_equal. apply key_separates, Hk.
  - intros key u. cbn. rewrite lookup_empty. discriminate.
Qed.
End MemoizePure.

Section DebounceSafety.
Import Debounce.
Context {Args : Type}.
Variable wait : Z.

Local Abbreviation state := (Debounce.state Args).
Local Abbreviation run := (Debounce.run (Args:=Args) wait).

(** X10. Whatever the calls and the host do, [func] is called with the
    arguments of a call made at least [wait] earlier, the pending timer is
    the timer of a call, and the calls of [func] and the pending timer
    together are no more than the calls made. *)
Theorem debounce_never_early (tr : list (Host.event Args)) (s : state) :
  run tr Debounce.create = Some s ->
  Forall (fun inv => exists tc, In (tc, snd inv) (Host.calls_of tr) /\
                                tc + Z.max 0 wait <= fst inv)
         (invoked (fst s)) /\
  Forall (fun tm => exists tc a, Host.timer_cb tm = Later a /\
                                 In (tc, a) (Host.calls_of tr) /\
                                 Host.timer_due tm = tc + Z.max 0 wait)
         (Host.pending (snd s)) /\
  (length (invoked (fst s)) + length (Host.pending (snd s))
   <= length (Host.calls_of tr))%nat.
Proof.
  revert s. induction tr as [|e tr IH] using rev_ind; intros s.
  - cbn. intros [= <-]. cbn. repeat split; constructor.
  - unfold Debounce.run. rewrite run_snoc, calls_of_snoc.
    destruct (Host.run _ _ tr Debounce.create) as [s0|] eqn:Hrun; [|discriminate].
    pose proof (tidy_run wait tr _ _ tidy_create Hrun) as Htidy.
    destruct (IH s0 Hrun) as (Hinv & Hpend & Hlen). intros Hstep.
    destruct e as [t args|t id].
    + destruct (tidy_call wait t args s0 s Htidy Hstep) as (_ & Hc & Hlog & _ & Hq).
      rewrite Hlog, Hq, length_app. cbn [length]. split; [|split].
      * eapply Forall_impl; [exact Hinv|]. intros [ti a] (tc & Hin & Hle).
        exists tc. split; [apply in_or_app; left; exact Hin|exact Hle].
      * constructor; [|constructor]. exists t, args. cbn.
        split; [reflexivity|]. split; [apply in_or_app; right; left; reflexivity|reflexivity].
      * lia.
    + destruct (tidy_fire wait t id s0 s Htidy Hstep)
        as (due & a & Hq & _ & Hdue & _ & ->).
      rewrite app_nil_r. cbn [fst snd invoked Host.pending].
      rewrite Hq in Hpend, Hlen. inversion Hpend as [|? ? (tc & a' & Ha & Hin & Hd) _]; subst.
      cbn in Ha, Hd. injection Ha as <-. rewrite length_app. cbn [length] in *.
      split; [|split; [constructor|lia]].
      apply Forall_app. split; [exact Hinv|]. constructor; [|constructor].
      exists tc. cbn. split; [exact Hin|lia].
Qed.
End DebounceSafety.

Section ThrottleSafety.
Import Throttle.
Context {Args E : Type}.
Variable func : Args -> completion unit E.
Variable limit : Z.

Local Abbreviation state := (Throttle.state Args).
Local Abbreviation step := (Throttle.step func limit).
Local Abbreviation run := (Throttle.run func limit).

Lemma throttle_step_log (e : Host.event Args) (s s' : state) :
  step e s = Some s' ->
  invoked (fst s') = invoked (fst s) \/
  exists t a, e = Host.Call t a /\ invoked (fst s') = invoked (fst s) ++ [(t, a)].
Proof.
  intros Hstep. destruct e as [t args|t id].
  - destruct (inThrottle (fst s)) eqn:Hin.
    + rewrite (throttled_call func limit t args s s' Hin Hstep). left. reflexivity.
    + destruct (leading_call func limit t args s s' Hin Hstep) as (_ & Hlog & _).
      right. eauto.
  - left. revert Hstep. unfold Throttle.step, Host.step.
    destruct (Host.expire _ _ _) as [[[] h]|]; [|discriminate].
    intros [= <-]. reflexivity.
Qed.

(** X11. Whether [func] returns or throws, it is called only within a
    call of the throttled function, at that time and with those arguments:
    the calls of [func] are some of the calls made, in order, and the first
    call made is the first of them.  No timer ever calls [func]. *)
Theorem throttle_calls_only_from_calls (tr : list (Host.event Args)) (s : state) :
  run tr Throttle.create = Some s ->
  sublist (invoked (fst s)) (Host.calls_of tr) /\
  (forall first, head (Host.calls_of tr) = Some first ->
                 head (invoked (fst s)) = Some first).
Proof.
  revert s. induction tr as [|e tr IH] using rev_ind; intros s.
  - cbn. intros [= <-]. cbn. split; [constructor|discriminate].
  - unfold Throttle.run. rewrite run_snoc, calls_of_snoc.
    destruct (Host.run _ _ tr Throttle.create) as [s0|] eqn:Hrun; [|discriminate].
    destruct (IH s0 Hrun) as [Hsub Hhead]. intros Hstep.
    assert (Hnone : Host.calls_of tr = [] -> s0 = Throttle.create).
    { clear - Hrun. intros Hc. destruct tr as [|[t a|t id] tr]; cbn in *.
      - injection Hrun as <-. reflexivity.
      - discriminate.
      - discriminate. }
    destruct (throttle_step_log e s0 s Hstep) as [Hlog|(t & a & -> & Hlog)]; rewrite Hlog.
    + split.
      * apply sublist_inserts_r. exact Hsub.
      * intros first Hf. destruct (Host.calls_of tr) as [|c cs] eqn:Hc.
        -- rewrite (Hnone eq_refl) in Hstep, Hlog. destruct e as [t a|t id].
           ++ destruct (leading_call func limit t a Throttle.create s eq_refl Hstep) as (_ & Hl & _).
              rewrite Hl in Hlog. cbn in Hlog. discriminate.
           ++ discriminate.
        -- apply Hhead. cbn in Hf. exact Hf.
    + split.
      * apply sublist_app; [exact Hsub|reflexivity].
      * intros first Hf. destruct (Host.calls_of tr) as [|c cs] eqn:Hc.
        -- rewrite (Hnone eq_refl). cbn in Hf |- *. exact Hf.
        -- cbn in Hf. specialize (Hhead first Hf).
           destruct (invoked (fst s0)); [discriminate|exact Hhead].
Qed.
End ThrottleSafety.

Section LazyForever.
Import LazyWithRetry.
Context {Mod Err : Type}.
Variable importFunc : nat -> reply Mod Err.
Variables retries interval : Z.
Variable lateness : nat -> Z.

Local Abbreviation state := (LazyWithRetry.state Mod Err).
Local Abbreviation tick := (LazyWithRetry.tick importFunc interval lateness).
Local Abbreviation run := (LazyWithRetry.run importFunc interval lateness).
Local Abbreviation load := (LazyWithRetry.load importFunc retries).
Local Abbreviation importing := (LazyWithRetry.importing importFunc retries interval).
Local Abbreviation waiting := (LazyWithRetry.waiting (Mod:=Mod) (Err:=Err) retries interval).

Hypothesis negative : retries < 0.
Hypothesis failing : forall k, exists e, outcome (importFunc k) = Rejected e.

Lemma climb_forever (j : nat) : importing j (run (2 * j) load).
Proof.
  induction j as [|j IH].
  - apply load_importing.
  - destruct (failing j) as [e He].
    destruct (importing_rejected importFunc retries interval lateness j _ e IH He
                ltac:(lia)) as (s1 & Ht1 & Hw).
    destruct (waiting_fires importFunc retries interval lateness j s1 Hw)
      as (s2 & Ht2 & Hi).
    replace (2 * S j)%nat with (S (S (2 * j))) by lia.
    apply run_next in Ht1. rewrite <- Ht1 in Ht2. apply run_next in Ht2.
    rewrite Ht2. exact Hi.
Qed.

(** X12. With a negative retry count and an import that always fails,
    the promise never settles and the attempts never stop: after [fuel] turns
    of the event loop there have been [fuel / 2 + 1] of them. *)
Theorem lazyWithRetry_negative_retries_never_settle (fuel : nat) :
  let s := run fuel load in
  promise (fst s) = None /\
  length (attempts (fst s)) = S (fuel / 2) /\
  exists s', tick s = Some s'.
Proof.
  cbn zeta. destruct (Nat.Even_or_Odd fuel) as [[j ->]|[j ->]].
  - replace (2 * j / 2)%nat with j by (rewrite Nat.mul_comm, Nat.div_mul; lia).
    pose proof (climb_forever j) as Hi. destruct (failing j) as [e He].
    destruct (importing_rejected importFunc retries interval lateness j _ e Hi He
                ltac:(lia)) as (s1 & Ht1 & _).
    split; [|split; [|rewrite Ht1; eauto]];
      destruct Hi as (ts & t & t' & id & -> & Hlen & _); [reflexivity|exact Hlen].
  - replace ((2 * j + 1) / 2)%nat with j
      by (rewrite Nat.mul_comm, Nat.div_add_l, Nat.div_small; lia).
    pose proof (climb_forever j) as Hi. destruct (failing j) as [e He].
    destruct (importing_rejected importFunc retries interval lateness j _ e Hi He
                ltac:(lia)) as (s1 & Ht1 & Hw).
    apply run_next in Ht1. replace (2 * j + 1)%nat with (S (2 * j)) by lia.
    rewrite Ht1.
    destruct (waiting_fires importFunc retries interval lateness j s1 Hw)
      as (s2 & Ht2 & _).
    split; [|split; [|rewrite Ht2; eauto]];
      destruct Hw as (ts & t0 & t & id & due & -> & Hlen & _); [reflexivity|exact Hlen].
Qed.
End LazyForever.

Section ChunkRulesFacts.
Import ManualChunks ChunkRules.
Local Open Scope string_scope.

Lemma string_append_assoc (p q r : string) : (p ++ q) ++ r = p ++ (q ++ r).
Proof.
  induction p as [|c p IH]; [reflexivity|].
  change (String c ((p ++ q) ++ r) = String c (p ++ (q ++ r))). f_equal. exact IH.
Qed.

(** A string that contains [p ++ q] contains [p] and contains [q]. *)
Lemma includes_parts (s p q : string) :
  includes s (p ++ q) = true -> includes s p = true /\ includes s q = true.
Proof.
  rewrite !includes_spec. intros (pre & post & ->). split.
  - exists pre, (q ++ post). rewrite string_append_assoc. reflexivity.
  - exists (pre ++ p), post. rewrite !string_append_assoc. reflexivity.
Qed.

Lemma not_includes_longer (s p q r : string) :
  includes s q = false -> includes s (p ++ q ++ r) = false.
Proof.
  intros Hq. destruct (includes s (p ++ q ++ r)) eqn:H; [|reflexivity].
  apply includes_parts in H. destruct H as [_ H].
  apply includes_parts in H. destruct H as [H _]. congruence.
Qed.

(** X13. The tests for [react-dom], [react-router], [antd-mobile-icons]
    and [react-i18next] never decide the chunk: [manualChunks] is the first
    rule of the shorter table.  So a path that contains [react-i18next]
    goes to [vendor-react], not to [vendor-i18n]. *)
Theorem manualChunks_redundant_tests (id : string) :
  manualChunks id =
    (if includes id "node_modules" then Some (first_rule id slim_rules) else None) /\
  (includes id "node_modules" = true -> includes id "react-i18next" = true ->
   manualChunks id = Some "vendor-react").
Proof.
  assert (Hdom : includes id "react" = false -> includes id "react-dom" = false)
    by apply (not_includes_longer id "" "react" "-dom").
  assert (Hrouter : includes id "react" = false -> includes id "react-router" = false)
    by apply (not_includes_longer id "" "react" "-router").
  assert (Hi18n : includes id "react" = false -> includes id "react-i18next" = false)
    by apply (not_includes_longer id "" "react" "-i18next").
  assert (Hicons : includes id "antd-mobile" = false ->
                   includes id "antd-mobile-icons" = false)
    by apply (not_includes_longer id "" "antd-mobile" "-icons").
  unfold manualChunks, slim_rules. cbn [first_rule existsb].
  destruct (includes id "node_modules"); [|split; [reflexivity|discriminate]].
  destruct (includes id "react") eqn:Hreact; cbn [orb].
  - split; reflexivity.
  - rewrite (Hdom eq_refl), (Hrouter eq_refl), (Hi18n eq_refl). cbn [orb].
    split; [|discriminate].
    destruct (includes id "antd-mobile") eqn:Hantd; cbn [orb]; [reflexivity|].
    rewrite (Hicons eq_refl). cbn [orb]. clear.
    repeat match goal with
    | |- context [includes id ?p] => destruct (includes id p)
    end; reflexivity.
Qed.
End ChunkRulesFacts.

Section ListenerFacts.
Import Listener.
Context {V : Type}.

Lemma foldl_define_lookup (source : list (string * V)) (m : gmap string V) (key : string) :
  NoDup (map fst source) ->
  foldl define m source !! key =
  match List.find (fun kv => String.eqb (fst kv) key) source with
  | Some kv => Some (snd kv)
  | None => m !! key
  end.
Proof.
  revert m. induction source as [|[k v] source IH]; intros m Hnd; cbn; [reflexivity|].
  apply NoDup_cons in Hnd. destruct Hnd as [Hk Hnd].
  rewrite (IH _ Hnd). unfold define. cbn [fst snd].
  destruct (String.eqb_spec k key) as [->|Hne].
  - destruct (List.find _ source) as [[k' v']|] eqn:Hf.
    + exfalso. apply find_some in Hf. destruct Hf as [Hin Heq]. cbn in Heq.
      apply String.eqb_eq in Heq. subst k'. apply Hk.
      apply list_elem_of_In, in_map_iff. exists (key, v'). auto.
    + apply lookup_insert_eq.
  - destruct (List.find _ source); [reflexivity|]. apply lookup_insert_ne, Hne.
Qed.

(** X14. Every option of the caller reaches [addEventListener] as given,
    also [passive]: the listener is registered with [passive: true] only when
    the caller's options have no [passive] of their own. *)
Theorem addPassiveEventListener_caller_wins (yes : V) (options : list (string * V)) :
  NoDup (map fst options) ->
  (forall key v, In (key, v) options ->
                 listener_options yes (Some options) !! key = Some v) /\
  (~ In "passive"%string (map fst options) ->
   listener_options yes (Some options) !! "passive"%string = Some yes) /\
  (forall key, key <> "passive"%string -> ~ In key (map fst options) ->
               listener_options yes (Some options) !! key = None) /\
  listener_options yes None = {["passive"%string := yes]}.
Proof.
  intros Hnd. unfold listener_options. cbn [default].
  split; [|split; [|split; [|reflexivity]]].
  - intros key v Hin. rewrite (foldl_define_lookup _ _ _ Hnd).
    destruct (List.find _ options) as [[k' v']|] eqn:Hf.
    + apply find_some in Hf. destruct Hf as [Hin' Heq]. cbn in Heq.
      apply String.eqb_eq in Heq. subst k'. cbn. f_equal.
      clear - Hnd Hin Hin'. induction options as [|[k u] options IH]; [contradiction|].
      cbn in Hnd. apply NoDup_cons in Hnd. destruct Hnd as [Hk Hnd].
      destruct Hin as [Heq|Hin], Hin' as [Heq'|Hin'].
      * congruence.
      * injection Heq as -> ->. exfalso. apply Hk.
        apply list_elem_of_In, in_map_iff. exists (key, v'). auto.
      * injection Heq' as -> ->. exfalso. apply Hk.
        apply list_elem_of_In, in_map_iff. exists (key, v). auto.
      * apply IH; assumption.
    + exfalso. eapply find_none in Hf; [|exact Hin]. cbn in Hf.
      rewrite String.eqb_refl in Hf. discriminate.
  - intros Hno. rewrite (foldl_define_lookup _ _ _ Hnd).
    destruct (List.find _ options) as [[k' v']|] eqn:Hf.
    + exfalso. apply find_some in Hf. destruct Hf as [Hin Heq]. cbn in Heq.
      apply String.eqb_eq in Heq. subst k'. apply Hno.
      apply in_map_iff. exists ("passive"%string, v'). auto.
    + apply lookup_singleton_eq.
  - intros key Hne Hno. rewrite (foldl_define_lookup _ _ _ Hnd).
    destruct (List.find _ options) as [[k' v']|] eqn:Hf.
    + exfalso. apply find_some in Hf. destruct Hf as [Hin Heq]. cbn in Heq.
      apply String.eqb_eq in Heq. subst k'. apply Hno.
      apply in_map_iff. exists (key, v'). auto.
    + apply lookup_singleton_ne. congruence.
Qed.
End ListenerFacts.

Section ViewportFacts.
Import Viewport.
Local Open Scope Q_scope.

(** X15. An element counts as in the viewport only when it lies in it
    whole:
    it is then no taller and no wider than the viewport, and whatever lies
    inside its rectangle is in the viewport too. *)
Theorem isInViewport_whole_element (r : rect)
  (innerHeight clientHeight innerWidth clientWidth : Q) :
  isInViewport r innerHeight clientHeight innerWidth clientWidth = true ->
  bottom r - top r <= or_else innerHeight clientHeight /\
  right r - left r <= or_else innerWidth clientWidth /\
  forall inner : rect,
    top r <= top inner -> left r <= left inner ->
    bottom inner <= bottom r -> right inner <= right r ->
    isInViewport inner innerHeight clientHeight innerWidth clientWidth = true.
Proof.
  unfold isInViewport. rewrite !andb_true_iff, !Qle_bool_iff.
  intros [[[Ht Hl] Hb] Hr]. split; [lra|]. split; [lra|].
  intros inner Hit Hil Hib Hir. rewrite !andb_true_iff, !Qle_bool_iff.
  repeat split; lra.
Qed.

(** A window height or width of 0 is passed over for the size of the
    document element. *)
Remark isInViewport_zero_window (r : rect) (clientHeight clientWidth : Q) :
  isInViewport r 0 clientHeight 0 clientWidth =
  Qle_bool 0 (top r) && Qle_bool 0 (left r) &&
  Qle_bool (bottom r) clientHeight && Qle_bool (right r) clientWidth.
Proof. reflexivity. Qed.
End ViewportFacts.

Section IdleCallbackFacts.
Import IdleCallback.
Context {Cb : Type}.

Lemma fresh_timer_last (q : list (Host.timer Cb)) (nid : nat) (tm : Host.timer Cb) :
  Forall (fun x => (Host.timer_id x < nid)%nat) q -> Host.timer_id tm = nid ->
  List.find (fun x => Nat.eqb (Host.timer_id x) nid) (q ++ [tm]) = Some tm /\
  List.filter (Host.other_than nid) (q ++ [tm]) = q.
Proof.
  intros Hq Hid. induction Hq as [|x q Hx Hq IH]; cbn.
  - unfold Host.other_than. rewrite Hid, Nat.eqb_refl. split; reflexivity.
  - unfold Host.other_than at 1.
    replace (Nat.eqb (Host.timer_id x) nid) with false
      by (symmetry; apply Nat.eqb_neq; lia).
    cbn. destruct IH as [IH1 IH2]. rewrite IH1, IH2. split; reflexivity.
Qed.

(** X16. Where the browser has no [requestIdleCallback]: cancelling a
    request
    leaves the timers and the clock as they were before it, and a request
    that is not cancelled runs its own callback, no sooner than 1 ms after
    the request. *)
Theorem idle_callback_polyfill (cb : Cb) (h : Host.host Cb) :
  handles_used h ->
  let id := fst (requestIdleCallback cb h) in
  let h1 := snd (requestIdleCallback cb h) in
  Host.pending (cancelIdleCallback id h1) = Host.pending h /\
  Host.clock (cancelIdleCallback id h1) = Host.clock h /\
  (forall t cb' h2, Host.expire t id h1 = Some (cb', h2) ->
     cb' = cb /\ Host.clock h + 1 <= t /\ Host.pending h2 = Host.pending h) /\
  (forall t, Host.clock h + 1 <= t -> exists h2, Host.expire t id h1 = Some (cb, h2)).
Proof.
  intros Hused. cbn zeta.
  unfold requestIdleCallback, cancelIdleCallback, Host.setTimeout, Host.clearTimeout,
    Host.expire, Host.find_timer.
  cbn [fst snd Host.pending Host.clock Host.next_id].
  destruct (fresh_timer_last (Host.pending h) (Host.next_id h)
              (Host.Timer (Host.next_id h) (Host.clock h + Z.max 0 1) cb) Hused eq_refl)
    as [Hfind Hfilter].
  rewrite Hfind, Hfilter. cbn [Host.timer_due Host.timer_cb].
  split; [reflexivity|]. split; [reflexivity|]. split.
  - intros t cb' h2.
    destruct (Z.leb_spec (Host.clock h) t); cbn; [|discriminate].
    destruct (Z.leb_spec (Host.clock h + Z.max 0 1) t); cbn; [|discriminate].
    intros [= <- <-]. cbn. repeat split; lia.
  - intros t Ht.
    destruct (Z.leb_spec (Host.clock h) t); cbn; [|lia].
    destruct (Z.leb_spec (Host.clock h + Z.max 0 1) t); cbn; [|lia].
    eauto.
Qed.
End IdleCallbackFacts.

(** ** The further theorems at concrete inputs *)

Lemma deepEqual_of_primitive_witness :
  DeepEqual.deepEqual DeepEqual.JNull DeepEqual.JUndefined
  = DeepEqual.strict_eq DeepEqual.JNull DeepEqual.JUndefined.
Proof. apply deepEqual_of_primitive. reflexivity. Defined.

Example deepEqual_edges :
  DeepEqual.deepEqual DeepEqual.JNull DeepEqual.JUndefined = false /\
  DeepEqual.deepEqual DeepEqual.JNaN DeepEqual.JNaN = false /\
  DeepEqual.deepEqual (DeepEqual.JArr 1 [DeepEqual.JNaN]) (DeepEqual.JArr 1 [DeepEqual.JNaN]) = true /\
  DeepEqual.deepEqual (DeepEqual.JArr 1 [DeepEqual.JNaN]) (DeepEqual.JArr 2 [DeepEqual.JNaN]) = false /\
  DeepEqual.deepEqual (DeepEqual.JNum 0) (DeepEqual.JArr 1 []) = false.
Proof. repeat split; reflexivity. Qed.

Lemma deepEqual_sym_object_free_witness :
  DeepEqual.deepEqual
    (DeepEqual.JArr 1 [DeepEqual.JNum 1; DeepEqual.JArr 2 [DeepEqual.JStr "a"]])
    (DeepEqual.JArr 3 [DeepEqual.JNum 1; DeepEqual.JArr 4 [DeepEqual.JStr "b"]])
  = DeepEqual.deepEqual
    (DeepEqual.JArr 3 [DeepEqual.JNum 1; DeepEqual.JArr 4 [DeepEqual.JStr "b"]])
    (DeepEqual.JArr 1 [DeepEqual.JNum 1; DeepEqual.JArr 2 [DeepEqual.JStr "a"]]).
Proof. apply deepEqual_sym_object_free; reflexivity. Defined.

Lemma deepEqual_copies_witness :
  DeepEqual.deepEqual
    (DeepEqual.JArr 1 [DeepEqual.JObj 2 [("id"%string, DeepEqual.JNum 7);
                                          ("tags"%string, DeepEqual.JArr 3 [DeepEqual.JStr "x"])]])
    (DeepEqual.JArr 4 [DeepEqual.JObj 5 [("id"%string, DeepEqual.JNum 7);
                                          ("tags"%string, DeepEqual.JArr 6 [DeepEqual.JStr "x"])]])
  = true.
Proof. apply deepEqual_copies; reflexivity. Defined.

Example useDeepCallback_stale :
  let deps1 := DeepEqual.JArr 1 [DeepEqual.JNum 1] in
  let deps2 := DeepEqual.JArr 2 [DeepEqual.JNum 2] in
  let '(returned, c) :=
    Hooks.DeepCallback.useDeepCallback ("first"%string, deps1) [("second"%string, deps2)] in
  returned = ["first"%string; "first"%string] /\
  Hooks.DeepCallback.ref c = "second"%string.
Proof. split; reflexivity. Qed.

Example useDeepEffect_runs :
  Hooks.DeepEffect.useDeepEffect
    (DeepEqual.JArr 1 [DeepEqual.JNum 1])
    [DeepEqual.JArr 2 [DeepEqual.JNum 1]; DeepEqual.JArr 3 [DeepEqual.JNum 2];
     DeepEqual.JArr 4 [DeepEqual.JNum 2]]
  = [true; false; true; false].
Proof. reflexivity. Qed.

Example usePrevious_values :
  Hooks.Previous.usePrevious 1%nat [1%nat; 2%nat; 2%nat; 3%nat]
  = [None; Some 1%nat; Some 1%nat; Some 2%nat; Some 2%nat].
Proof. reflexivity. Qed.

Lemma memoize_one_call_per_key_witness :
  let fn := fun (n : nat) (w : unit) => (Returns (E:=unit) (n * 2)%nat, w) in
  let stringify := fun n : nat => Returns (E:=unit) (pretty n) in
  let m := Memoize.calls fn None stringify [3%nat; 4%nat; 3%nat; 3%nat]
             (Memoize.create tt) in
  dom (Memoize.cache m) = list_to_set (map pretty [3%nat; 4%nat; 3%nat; 3%nat]) /\
  length (Memoize.invocations m)
  = size (list_to_set (map pretty [3%nat; 4%nat; 3%nat; 3%nat]) : gset string).
Proof.
  intros fn stringify.
  apply (memoize_one_call_per_key fn None stringify (fun n => (n * 2)%nat) pretty);
    reflexivity.
Defined.

Example memoize_two_keys :
  Memoize.invocations
    (Memoize.calls (fun (n : nat) (w : unit) => (Returns (E:=unit) (n * 2)%nat, w))
       None (fun n : nat => Returns (E:=unit) (pretty n))
       [3%nat; 4%nat; 3%nat; 3%nat] (Memoize.create tt))
  = [3%nat; 4%nat].
Proof. reflexivity. Qed.

Lemma memoize_transparent_witness :
  let fn := fun (n : nat) (w : unit) => (Returns (E:=unit) (n mod 2)%nat, w) in
  let getKey := Some (fun (n : nat) (w : unit) =>
                        (Returns (E:=unit) (pretty (n mod 2)%nat), w)) in
  let stringify := fun n : nat => Returns (E:=unit) (pretty n) in
  fst (Memoize.memoized fn getKey stringify 5%nat
         (Memoize.calls fn getKey stringify [1%nat; 2%nat; 3%nat] (Memoize.create tt)))
  = Returns 1%nat.
Proof.
  intros fn getKey stringify.
  apply (memoize_transparent fn getKey stringify (fun n => (n mod 2)%nat)
           (fun n => pretty (n mod 2)%nat)).
  - reflexivity.
  - reflexivity.
  - intros a b H. apply (inj pretty) in H. exact H.
Defined.

Lemma debounce_never_early_witness :
  exists s : Debounce.state string,
    Debounce.run 100
      [Host.Call 0 "a"%string; Host.Fire 150 1%nat; Host.Call 200 "b"%string;
       Host.Call 400 "c"%string]
      Debounce.create = Some s /\
    Debounce.invoked (fst s) = [(150, "a"%string)] /\
    Forall (fun inv => exists tc,
              In (tc, snd inv)
                 (Host.calls_of [Host.Call 0 "a"%string; Host.Fire 150 1%nat;
                                 Host.Call 200 "b"%string; Host.Call 400 "c"%string]) /\
              tc + Z.max 0 100 <= fst inv)
           (Debounce.invoked (fst s)) /\
    Forall (fun tm => exists tc a,
              Host.timer_cb tm = Debounce.Later a /\
              In (tc, a)
                 (Host.calls_of [Host.Call 0 "a"%string; Host.Fire 150 1%nat;
                                 Host.Call 200 "b"%string; Host.Call 400 "c"%string]) /\
              Host.timer_due tm = tc + Z.max 0 100)
           (Host.pending (snd s)) /\
    (length (Debounce.invoked (fst s)) + length (Host.pending (snd s))
     <= length (Host.calls_of [Host.Call 0 "a"%string; Host.Fire 150 1%nat;
                               Host.Call 200 "b"%string; Host.Call 400 "c"%string]))%nat.
Proof.
  eexists. split; [reflexivity|]. split; [reflexivity|].
  apply (debounce_never_early 100
           [Host.Call 0 "a"%string; Host.Fire 150 1%nat; Host.Call 200 "b"%string;
            Host.Call 400 "c"%string]).
  reflexivity.
Defined.

Lemma throttle_calls_only_from_calls_witness :
  let func := fun n : nat =>
                match n with
                | O => Throws (A:=unit) "boom"%string
                | S _ => Returns tt
                end in
  exists s : Throttle.state nat,
    Throttle.run func 100
      [Host.Call 0 0%nat; Host.Call 10 1%nat; Host.Call 20 2%nat; Host.Fire 110 1%nat;
       Host.Call 120 3%nat]
      Throttle.create = Some s /\
    Throttle.invoked (fst s) = [(0, 0%nat); (10, 1%nat); (120, 3%nat)] /\
    sublist (Throttle.invoked (fst s))
      (Host.calls_of [Host.Call 0 0%nat; Host.Call 10 1%nat; Host.Call 20 2%nat;
                      Host.Fire 110 1%nat; Host.Call 120 3%nat]) /\
    (forall first,
       head (Host.calls_of [Host.Call 0 0%nat; Host.Call 10 1%nat; Host.Call 20 2%nat;
                            Host.Fire 110 1%nat; Host.Call 120 3%nat]) = Some first ->
       head (Throttle.invoked (fst s)) = Some first).
Proof.
  intros func. eexists. split; [reflexivity|]. split; [reflexivity|].
  apply (throttle_calls_only_from_calls func 100
           [Host.Call 0 0%nat; Host.Call 10 1%nat; Host.Call 20 2%nat;
            Host.Fire 110 1%nat; Host.Call 120 3%nat]).
  reflexivity.
Defined.

Lemma lazyWithRetry_negative_retries_witness :
  let importFunc := fun k : nat => LazyWithRetry.Reply (LazyWithRetry.Rejected (Mod:=unit) k) 5 in
  let s := LazyWithRetry.run importFunc 1000 (fun _ => 0) 40
             (LazyWithRetry.load importFunc (-1)) in
  LazyWithRetry.promise (fst s) = None /\
  length (LazyWithRetry.attempts (fst s)) = S (40 / 2) /\
  exists s', LazyWithRetry.tick importFunc 1000 (fun _ => 0) s = Some s'.
Proof.
  intros importFunc.
  apply (lazyWithRetry_negative_retries_never_settle importFunc (-1) 1000 (fun _ => 0)).
  - lia.
  - intros k. exists k. reflexivity.
Defined.

Lemma addPassiveEventListener_caller_wins_witness :
  let options := [("once"%string, true); ("passive"%string, false)] in
  (forall key v, In (key, v) options ->
                 Listener.listener_options true (Some options) !! key = Some v) /\
  (~ In "passive"%string (map fst options) ->
   Listener.listener_options true (Some options) !! "passive"%string = Some true) /\
  (forall key, key <> "passive"%string -> ~ In key (map fst options) ->
               Listener.listener_options true (Some options) !! key = None) /\
  Listener.listener_options true None = {["passive"%string := true]}.
Proof.
  intros options. apply (addPassiveEventListener_caller_wins true options).
  apply (bool_decide_unpack (NoDup (map fst options))). vm_compute. exact I.
Defined.

Example addPassiveEventListener_not_passive :
  Listener.listener_options true (Some [("passive"%string, false)]) !! "passive"%string
  = Some false.
Proof. reflexivity. Qed.

Lemma isInViewport_whole_element_witness :
  let r := Viewport.Rect (10 # 1) (5 # 2) (200 # 1) (300 # 1) in
  (Viewport.bottom r - Viewport.top r <= Viewport.or_else (768 # 1) 0)%Q /\
  (Viewport.right r - Viewport.left r <= Viewport.or_else (1024 # 1) 0)%Q /\
  forall inner : Viewport.rect,
    (Viewport.top r <= Viewport.top inner)%Q -> (Viewport.left r <= Viewport.left inner)%Q ->
    (Viewport.bottom inner <= Viewport.bottom r)%Q ->
    (Viewport.right inner <= Viewport.right r)%Q ->
    Viewport.isInViewport inner (768 # 1) 0 (1024 # 1) 0 = true.
Proof.
  intros r. apply (isInViewport_whole_element r (768 # 1) 0 (1024 # 1) 0).
  reflexivity.
Defined.

Lemma idle_callback_polyfill_witness :
  let h := Host.Host 50 3 [Host.Timer 2 80 "other"%string] in
  let id := fst (IdleCallback.requestIdleCallback "work"%string h) in
  let h1 := snd (IdleCallback.requestIdleCallback "work"%string h) in
  Host.pending (IdleCallback.cancelIdleCallback id h1) = Host.pending h /\
  Host.clock (IdleCallback.cancelIdleCallback id h1) = Host.clock h /\
  (forall t cb' h2, Host.expire t id h1 = Some (cb', h2) ->
     cb' = "work"%string /\ Host.clock h + 1 <= t /\ Host.pending h2 = Host.pending h) /\
  (forall t, Host.clock h + 1 <= t ->
     exists h2, Host.expire t id h1 = Some ("work"%string, h2)).
Proof.
  intros h. apply (idle_callback_polyfill "work"%string h).
  repeat constructor.
Defined.

Section LazyTiming.
Import LazyWithRetry.
Context {Mod Err : Type}.
Variable importFunc : nat -> reply Mod Err.
Variables retries interval : Z.
Variable lateness : nat -> Z.

Local Abbreviation state := (LazyWithRetry.state Mod Err).
Local Abbreviation tick := (LazyWithRetry.tick importFunc interval lateness).
Local Abbreviation run := (LazyWithRetry.run importFunc interval lateness).
Local Abbreviation load := (LazyWithRetry.load importFunc retries).

Lemma tick_keeps_first (s s' : state) :
  tick s = Some s' ->
  exists new, attempts (fst s') = attempts (fst s) ++ new.
Proof.
  unfold LazyWithRetry.tick.
  destruct (inflight (fst s)) as [[[t o] n]|].
  - intros [= <-]. exists []. rewrite app_nil_r.
    unfold LazyWithRetry.on_settled, settle. cbn [fst snd promise attempts].
    destruct o as [m|e]; [destruct (promise (fst s)); reflexivity|].
    destruct (Z.eqb n 0); [destruct (promise (fst s)); reflexivity|reflexivity].
  - destruct (Host.pending (snd s)) as [|tm q]; [discriminate|].
    destruct (Host.expire _ _ _) as [[[n] h]|]; [|discriminate].
    intros [= <-]. eexists. reflexivity.
Qed.

Lemma run_keeps_first (fuel : nat) (s : state) (t : Z) :
  head (attempts (fst s)) = Some t ->
  head (attempts (fst (run fuel s))) = Some t.
Proof.
  revert s. induction fuel as [|fuel IH]; intros s Hs; cbn; [exact Hs|].
  destruct (tick s) as [s'|] eqn:Ht; [|exact Hs].
  apply IH. destruct (tick_keeps_first s s' Ht) as [new ->].
  destruct (attempts (fst s)); [discriminate|exact Hs].
Qed.

Lemma spaced_span (w : Z) (ts : list Z) (a b : Z) (n : nat) :
  spaced w ts -> head ts = Some a -> last ts = Some b -> length ts = S n ->
  a + Z.of_nat n * w <= b.
Proof.
  revert a n. induction ts as [|t [|t' ts] IH]; intros a n Hs Hh Hl Hn.
  - discriminate.
  - cbn in *. injection Hh as <-. injection Hl as <-. injection Hn as <-. lia.
  - destruct Hs as [Htt Hs]. injection Hh as <-.
    destruct n as [|n]; [discriminate|].
    assert (Hn' : length (t' :: ts) = S n) by (cbn in *; lia).
    specialize (IH t' n Hs eq_refl Hl Hn'). lia.
Qed.

(** X17. When every attempt fails, the last attempt starts no sooner than
    [retries * interval] after the start of the load, so the rejection
    comes no sooner either. *)
Theorem lazyWithRetry_failure_takes_time (fuel : nat) :
  0 <= retries ->
  (forall k, exists e, outcome (importFunc k) = Rejected e) ->
  (2 * Z.to_nat retries + 1 <= fuel)%nat ->
  exists t e,
    promise (fst (run fuel load)) = Some (Rejected e) /\
    last (attempts (fst (run fuel load))) = Some t /\
    retries * interval <= t.
Proof.
  intros Hr Hfail Hfuel.
  pose proof (lands importFunc retries interval lateness (Z.to_nat retries) fuel
                ltac:(lia) ltac:(intros; apply Hfail) ltac:(left; lia) Hfuel) as Hfin.
  pose proof (run_keeps_first fuel load 0 eq_refl) as Hhead.
  destruct Hfin as (ts & h & Heq & _ & Hlen & Hsp).
  rewrite Heq in Hhead |- *. cbn [fst promise attempts] in *.
  destruct (Hfail (Z.to_nat retries)) as [e He]. rewrite He.
  destruct (last ts) as [t|] eqn:Hl.
  - exists t, e. split; [reflexivity|]. split; [reflexivity|].
    pose proof (spaced_span interval ts 0 t (Z.to_nat retries) Hsp Hhead Hl Hlen) as Hspan.
    rewrite Z2Nat.id in Hspan by lia. lia.
  - destruct ts; [discriminate|]. exfalso. revert Hl. clear.
    revert z. induction ts as [|y ts IH]; intros z; [discriminate|apply IH].
Qed.
End LazyTiming.

Section ChunkPathFacts.
Import ManualChunks.
Local Open Scope string_scope.

(** X18. [manualChunks] searches the whole path, not the name of the
    package: when the directory the project lives in contains [react],
    every dependency goes to [vendor-react]. *)
Theorem manualChunks_whole_path (root rest : string) :
  includes root "react" = true ->
  manualChunks (root ++ "/node_modules/" ++ rest) = Some "vendor-react".
Proof.
  intros Hroot. unfold manualChunks.
  assert (Hnm : includes (root ++ "/node_modules/" ++ rest) "node_modules" = true).
  { apply includes_spec. exists (root ++ "/"), ("/" ++ rest).
    rewrite string_append_assoc. reflexivity. }
  assert (Hreact : includes (root ++ "/node_modules/" ++ rest) "react" = true).
  { apply includes_spec in Hroot. destruct Hroot as (pre & post & ->).
    apply includes_spec. exists pre, (post ++ "/node_modules/" ++ rest).
    rewrite !string_append_assoc. reflexivity. }
  rewrite Hnm, Hreact. reflexivity.
Qed.
End ChunkPathFacts.

Lemma lazyWithRetry_failure_takes_time_witness :
  let importFunc := fun k : nat => LazyWithRetry.Reply (LazyWithRetry.Rejected (Mod:=unit) k) 5 in
  exists t e,
    LazyWithRetry.promise
      (fst (LazyWithRetry.run importFunc 1000 (fun _ => 0) 7
              (LazyWithRetry.load importFunc 3))) = Some (LazyWithRetry.Rejected e) /\
    last (LazyWithRetry.attempts
            (fst (LazyWithRetry.run importFunc 1000 (fun _ => 0) 7
                    (LazyWithRetry.load importFunc 3)))) = Some t /\
    3 * 1000 <= t.
Proof.
  intros importFunc.
  apply (lazyWithRetry_failure_takes_time importFunc 3 1000 (fun _ => 0) 7).
  - lia.
  - intros k. exists k. reflexivity.
  - cbn. lia.
Defined.

Lemma manualChunks_whole_path_witness :
  ManualChunks.manualChunks
    ("/home/dev/react-apps/nanchat" ++ "/node_modules/" ++ "lodash/lodash.js")%string
  = Some "vendor-react"%string.
Proof.
  apply (manualChunks_whole_path "/home/dev/react-apps/nanchat" "lodash/lodash.js").
  reflexivity.
Defined.
